(** * A library catalogue: ordered collection, secondary indexes, facade

    Shallow embedding of [src/library.py]: the frozen dataclass [Book] and its
    two subclasses, the list-backed [BookCollection], the three dictionaries
    of [IndexDict], and the [Library] facade that drives both.

    Conventions of the embedding.
    - A Python [dict] is a [gmap], a Python [set] of books a [gset Book]
      (dataclass equality and hashing are field-wise, and so is Leibniz
      equality on the record below).
    - A method that mutates [self] is a function from the state before the
      call to the state after it; a method that may raise returns the state
      after the call together with a [result], because a Python exception
      does not roll back what was mutated before it was raised.
    - [str.lower] and [random.Random.randrange] are library code outside the
      repository: the development is parametric in both. *)

From Stdlib Require Import Ascii QArith Qcanon.
From stdpp Require Import gmap strings list fin_maps pretty.

Open Scope Z_scope.

Set Warnings "-clear-no-such-hyp".

(** ** Exceptions and results *)

(** The two exceptions the modelled methods raise. [KeyError] is what the
    specification calls NotFoundError, [IndexError] what it calls
    EmptyCollectionError. *)
Inductive exn : Set :=
  | KeyError
  | IndexError.

Inductive result (A : Type) : Type :=
  | Return (a : A)
  | Raise (e : exn).
Arguments Return {A} a.
Arguments Raise {A} e.

#[global] Instance exn_eq_dec : EqDecision exn.
Proof. solve_decision. Defined.

(** ** Books *)

(** What a subclass adds to the five fields of [Book]. Two dataclass
    instances are equal only when they have the same class, hence the tag.
    [file_size_mb] is a Python float; a finite float is the rational it
    denotes. *)
Inductive BookKind : Type :=
  | Plain
  | Printed (pages : Z) (cover_type : string)
  | Digital (file_format : string) (file_size_mb : Qc).

Record Book : Type := mkBook {
  title : string;
  author : string;
  year : Z;
  genre : string;
  isbn : string;
  kind : BookKind
}.

Definition PrintedBook (t a : string) (y : Z) (g i : string)
    (pages : Z) (cover_type : string) : Book :=
  mkBook t a y g i (Printed pages cover_type).

Definition DigitalBook (t a : string) (y : Z) (g i : string)
    (file_format : string) (file_size_mb : Qc) : Book :=
  mkBook t a y g i (Digital file_format file_size_mb).

#[global] Instance BookKind_eq_dec : EqDecision BookKind.
Proof. solve_decision. Defined.

#[global] Instance Book_eq_dec : EqDecision Book.
Proof. solve_decision. Defined.

Definition BookKind_to_sum (k : BookKind) : unit + (Z * string) + (string * Qc) :=
  match k with
  | Plain => inl (inl tt)
  | Printed p c => inl (inr (p, c))
  | Digital f s => inr (f, s)
  end.

Definition BookKind_of_sum (s : unit + (Z * string) + (string * Qc)) : BookKind :=
  match s with
  | inl (inl _) => Plain
  | inl (inr (p, c)) => Printed p c
  | inr (f, s) => Digital f s
  end.

#[global] Instance BookKind_countable : Countable BookKind.
Proof.
  apply (inj_countable' BookKind_to_sum BookKind_of_sum).
  by intros [].
Defined.

Definition Book_to_tuple (b : Book) :=
  (title b, author b, year b, genre b, isbn b, kind b).

Definition Book_of_tuple (t : string * string * Z * string * string * BookKind) : Book :=
  let '(t, a, y, g, i, k) := t in mkBook t a y g i k.

#[global] Instance Book_countable : Countable Book.
Proof.
  apply (inj_countable' Book_to_tuple Book_of_tuple).
  by intros [].
Defined.

(** The methods that take [book_or_isbn : Book | str]. *)
Inductive BookOrIsbn : Type :=
  | OfBook (b : Book)
  | OfIsbn (s : string).

(** [book_or_isbn.isbn if isinstance(book_or_isbn, Book) else book_or_isbn] *)
Definition isbn_of (book_or_isbn : BookOrIsbn) : string :=
  match book_or_isbn with
  | OfBook b => isbn b
  | OfIsbn s => s
  end.

(** ** BookCollection *)

(** [BookCollection.books] is a Python list in insertion order. *)
Abbreviation BookCollection := (list Book).

(** [list.pop(idx)] for [0 <= idx]: the element and the shortened list, or
    nothing when [idx] is out of range (Python raises IndexError there). *)
Definition list_pop {A : Type} (idx : nat) (l : list A) : option (A * list A) :=
  match l !! idx with
  | Some x => Some (x, delete idx l)
  | None => None
  end.

(** [BookCollection.__contains__] *)
Definition BookCollection_contains (book_or_isbn : BookOrIsbn) (books : BookCollection) : bool :=
  existsb (λ book, bool_decide (isbn book = isbn_of book_or_isbn)) books.

(** [BookCollection.add] *)
Definition BookCollection_add (book : Book) (books : BookCollection) : BookCollection :=
  books ++ [book].

(** [BookCollection.__add__]: starts from a copy of [self.books] and appends
    each book of [other] that the growing [combined] does not contain yet. *)
Definition BookCollection_concat (self other : BookCollection) : BookCollection :=
  foldl (λ combined book,
           if BookCollection_contains (OfBook book) combined
           then combined
           else BookCollection_add book combined)
        self other.

(** [BookCollection.remove]: pops the first entry with the isbn. *)
Definition BookCollection_remove (book_or_isbn : BookOrIsbn) (books : BookCollection)
    : BookCollection * result Book :=
  match list_find (λ candidate, isbn candidate = isbn_of book_or_isbn) books with
  | Some (idx, _) =>
      match list_pop idx books with
      | Some (book, books') => (books', Return book)
      | None => (books, Raise IndexError)
      end
  | None => (books, Raise KeyError)
  end.

(** [BookCollection.snapshot] *)
Definition BookCollection_snapshot (books : BookCollection) : list Book := books.

(** ** IndexDict *)

Record IndexDict : Type := mkIndexDict {
  by_isbn : gmap string Book;
  by_author : gmap string (gset Book);
  by_year : gmap Z (gset Book)
}.

(** [IndexDict.__init__] *)
Definition IndexDict_init : IndexDict := mkIndexDict ∅ ∅ ∅.

(** [d.setdefault(key, set()).add(book)] *)
Definition bucket_add {K : Type} {eqK : EqDecision K} {cntK : Countable K} (key : K) (book : Book)
    (d : gmap K (gset Book)) : gmap K (gset Book) :=
  <[key := default ∅ (d !! key) ∪ {[book]}]> d.

(** The block that [IndexDict.remove] runs on each of the two bucket
    dictionaries: [s = d.get(key)]; when there is such a set,
    [s.discard(book)], and [d.pop(key, None)] when that leaves it empty. *)
Definition bucket_discard {K : Type} {eqK : EqDecision K} {cntK : Countable K} (key : K) (book : Book)
    (d : gmap K (gset Book)) : gmap K (gset Book) :=
  match d !! key with
  | Some s =>
      let s' := s ∖ {[book]} in
      if decide (s' = ∅) then delete key d else <[key := s']> d
  | None => d
  end.

(** [d.get(key, ())], read as a set. *)
Definition bucket {K : Type} {eqK : EqDecision K} {cntK : Countable K} (key : K) (d : gmap K (gset Book)) : gset Book :=
  default ∅ (d !! key).

(** [IndexDict.__len__] *)
Definition IndexDict_len (idx : IndexDict) : nat := size (by_isbn idx).

(** [IndexDict.__contains__] *)
Definition IndexDict_contains (key : BookOrIsbn) (idx : IndexDict) : bool :=
  bool_decide (is_Some (by_isbn idx !! isbn_of key)).

(** [IndexDict.__getitem__] on a [str] key: [self.by_isbn[key]]. *)
Definition IndexDict_getitem (key : string) (idx : IndexDict) : result Book :=
  match by_isbn idx !! key with
  | Some book => Return book
  | None => Raise KeyError
  end.

(** ** Instances used in the worked examples *)

(** Lowercasing of the ASCII letters; every other character is kept. On
    ASCII-only strings this is what [str.lower] computes. *)
Definition lower_ascii_char (c : ascii) : ascii :=
  let n := nat_of_ascii c in
  if ((65 <=? n) && (n <=? 90))%nat then ascii_of_nat (n + 32) else c.

Fixpoint lower_ascii (s : string) : string :=
  match s with
  | EmptyString => EmptyString
  | String c rest => String (lower_ascii_char c) (lower_ascii rest)
  end.

(** A deterministic source of draws: the state is a counter, and
    [randrange n] returns it modulo [n]. *)
Definition counter_randrange (g n : nat) : nat * nat := ((g mod n)%nat, S g).

Definition book_old : Book :=
  PrintedBook "First edition" "Author A" 2001 "novel" "010" 150 "hardcover".

Definition book_new : Book :=
  PrintedBook "Second edition" "Author B" 2002 "novel" "010" 180 "hardcover".

Definition book_other : Book :=
  DigitalBook "Essays" "AUTHOR a" 2001 "essay" "020" "pdf" (Q2Qc (13 # 4)).

Section Catalogue.

(** [str.lower] *)
Variable lower : string → string.

(** The state of a [random.Random] and its [randrange(n)]: the number
    drawn and the state after the draw. *)
Variable Rng : Type.
Variable randrange : Rng → nat → nat * Rng.

(** [BookCollection.pop_random] *)
Definition BookCollection_pop_random (rng : Rng) (books : BookCollection)
    : Rng * BookCollection * result Book :=
  match books with
  | [] => (rng, books, Raise IndexError)
  | _ :: _ =>
      let '(index, rng') := randrange rng (length books) in
      match list_pop index books with
      | Some (book, books') => (rng', books', Return book)
      | None => (rng', books, Raise IndexError)
      end
  end.

(** [IndexDict.add] *)
Definition IndexDict_add (book : Book) (idx : IndexDict) : IndexDict :=
  {| by_isbn := <[isbn book := book]> (by_isbn idx);
     by_author := bucket_add (lower (author book)) book (by_author idx);
     by_year := bucket_add (year book) book (by_year idx) |}.

(** [IndexDict.remove]: [self.by_isbn.pop(isbn)] raises KeyError before
    anything is changed when the isbn is no key. *)
Definition IndexDict_remove (book_or_isbn : BookOrIsbn) (idx : IndexDict)
    : IndexDict * result Book :=
  match by_isbn idx !! isbn_of book_or_isbn with
  | Some book =>
      ({| by_isbn := delete (isbn_of book_or_isbn) (by_isbn idx);
          by_author := bucket_discard (lower (author book)) book (by_author idx);
          by_year := bucket_discard (year book) book (by_year idx) |},
       Return book)
  | None => (idx, Raise KeyError)
  end.

(** [IndexDict.get_by_author]: the bucket as a collection; the order in
    which a Python set is iterated is unspecified. *)
Definition IndexDict_get_by_author (a : string) (idx : IndexDict) : BookCollection :=
  elements (bucket (lower a) (by_author idx)).

(** [IndexDict.get_by_year] *)
Definition IndexDict_get_by_year (y : Z) (idx : IndexDict) : BookCollection :=
  elements (bucket y (by_year idx)).

(** [IndexDict.rebuild]: the three [clear()] calls, then [add] per book. *)
Definition IndexDict_rebuild (books : list Book) (idx : IndexDict) : IndexDict :=
  let cleared :=
    {| by_isbn := ∅ : gmap string Book;
       by_author := ∅ : gmap string (gset Book);
       by_year := ∅ : gmap Z (gset Book) |} in
  foldl (λ acc book, IndexDict_add book acc) cleared books.

(** ** Library *)

Record Library : Type := mkLibrary {
  books : list Book;
  indexes : IndexDict
}.

(** [Library.__init__] *)
Definition Library_init (initial : list Book) : Library :=
  {| books := initial; indexes := IndexDict_rebuild initial IndexDict_init |}.

(** [Library.add_book] *)
Definition Library_add_book (book : Book) (lib : Library) : Library :=
  {| books := BookCollection_add book (books lib);
     indexes := IndexDict_add book (indexes lib) |}.

(** [Library.remove_book]: the collection is shortened first; when the
    index then raises, the collection stays shortened. *)
Definition Library_remove_book (i : string) (lib : Library) : Library * result Book :=
  match BookCollection_remove (OfIsbn i) (books lib) with
  | (books', Return removed) =>
      match IndexDict_remove (OfIsbn i) (indexes lib) with
      | (indexes', Return _) =>
          ({| books := books'; indexes := indexes' |}, Return removed)
      | (indexes', Raise e) =>
          ({| books := books'; indexes := indexes' |}, Raise e)
      end
  | (books', Raise e) => ({| books := books'; indexes := indexes lib |}, Raise e)
  end.

(** [Library.remove_random] *)
Definition Library_remove_random (rng : Rng) (lib : Library)
    : Rng * Library * result Book :=
  match BookCollection_pop_random rng (books lib) with
  | (rng', books', Return removed) =>
      match IndexDict_remove (OfBook removed) (indexes lib) with
      | (indexes', Return _) =>
          (rng', {| books := books'; indexes := indexes' |}, Return removed)
      | (indexes', Raise e) =>
          (rng', {| books := books'; indexes := indexes' |}, Raise e)
      end
  | (rng', books', Raise e) =>
      (rng', {| books := books'; indexes := indexes lib |}, Raise e)
  end.

(** [Library.refresh_indexes] *)
Definition Library_refresh_indexes (lib : Library) : Library :=
  {| books := books lib; indexes := IndexDict_rebuild (books lib) (indexes lib) |}.

(** [Library.find_by_author], [Library.find_by_year] *)
Definition Library_find_by_author (a : string) (lib : Library) : BookCollection :=
  IndexDict_get_by_author a (indexes lib).

Definition Library_find_by_year (y : Z) (lib : Library) : BookCollection :=
  IndexDict_get_by_year y (indexes lib).

(** [Library.find_by_genre] *)
Definition Library_find_by_genre (g : string) (lib : Library) : BookCollection :=
  filter (λ book, lower (genre book) = lower g) (books lib).

(** [Library.get_by_isbn] *)
Definition Library_get_by_isbn (i : string) (lib : Library) : result Book :=
  IndexDict_getitem i (indexes lib).


(** ** Specification vocabulary *)

(** No key of a bucket dictionary maps to the empty set. *)
Definition no_empty_bucket {K : Type} {eqK : EqDecision K} {cntK : Countable K} (d : gmap K (gset Book)) : Prop :=
  ∀ key s, d !! key = Some s → s ≠ ∅.

(** A book is present in [by_isbn]: it is the value stored under its isbn. *)
Definition in_by_isbn (b : Book) (idx : IndexDict) : Prop :=
  by_isbn idx !! isbn b = Some b.

(** A book appears in the author bucket, and in the year bucket, it belongs to. *)
Definition in_own_buckets (b : Book) (idx : IndexDict) : Prop :=
  b ∈ bucket (lower (author b)) (by_author idx) ∧
  b ∈ bucket (year b) (by_year idx).

(** Full bidirectional consistency of the three dictionaries, with no
    dangling empty bucket. *)
Definition index_consistent (idx : IndexDict) : Prop :=
  (∀ b, in_by_isbn b idx ↔ in_own_buckets b idx) ∧
  no_empty_bucket (by_author idx) ∧
  no_empty_bucket (by_year idx).

(** The calls a client can make on an [IndexDict]. *)
Inductive index_op : Type :=
  | IAdd (book : Book)
  | IRemove (book_or_isbn : BookOrIsbn)
  | IRebuild (books : list Book).

(** The index after a call, whether or not the call raised. *)
Definition index_step (o : index_op) (idx : IndexDict) : IndexDict :=
  match o with
  | IAdd book => IndexDict_add book idx
  | IRemove k => (IndexDict_remove k idx).1
  | IRebuild l => IndexDict_rebuild l idx
  end.

Definition index_run (ops : list index_op) (idx : IndexDict) : IndexDict :=
  foldl (λ acc o, index_step o acc) idx ops.

(** Indexes reachable from the empty one: those that a sequence of calls
    produces (lemma [index_reachable_run]). *)
Inductive index_reachable : IndexDict → Prop :=
  | index_reachable_init : index_reachable IndexDict_init
  | index_reachable_step o idx :
      index_reachable idx → index_reachable (index_step o idx).

(** A call that never stores a second book under an isbn already taken:
    [add] of an isbn that is no key of [by_isbn], [rebuild] from books with
    pairwise different isbns. *)
Definition index_op_fresh (o : index_op) (idx : IndexDict) : Prop :=
  match o with
  | IAdd book => by_isbn idx !! isbn book = None
  | IRemove _ => True
  | IRebuild l => NoDup (isbn <$> l)
  end.

Inductive index_reachable_fresh : IndexDict → Prop :=
  | index_reachable_fresh_init : index_reachable_fresh IndexDict_init
  | index_reachable_fresh_step o idx :
      index_reachable_fresh idx → index_op_fresh o idx →
      index_reachable_fresh (index_step o idx).

(** What every reachable index satisfies, duplicates or not. *)
Record index_wf (idx : IndexDict) : Prop := mkIndexWf {
  wf_key : ∀ k b, by_isbn idx !! k = Some b → isbn b = k;
  wf_forward : ∀ k b, by_isbn idx !! k = Some b → in_own_buckets b idx;
  wf_author_key : ∀ key b, b ∈ bucket key (by_author idx) → lower (author b) = key;
  wf_year_key : ∀ key b, b ∈ bucket key (by_year idx) → year b = key;
  wf_author_nonempty : no_empty_bucket (by_author idx);
  wf_year_nonempty : no_empty_bucket (by_year idx)
}.

(** What holds in addition when no isbn was ever stored twice: a bucket
    holds no book that [by_isbn] has lost. *)
Record index_tight (idx : IndexDict) : Prop := mkIndexTight {
  tight_wf : index_wf idx;
  tight_author : ∀ key b, b ∈ bucket key (by_author idx) → in_by_isbn b idx;
  tight_year : ∀ key b, b ∈ bucket key (by_year idx) → in_by_isbn b idx
}.

(** The isbns a collection holds. *)
Definition collection_ids (books : BookCollection) : gset string :=
  list_to_set (isbn <$> books).

(** How many entries a full scan finds under an isbn. *)
Definition count_isbn (i : string) (books : BookCollection) : nat :=
  length (filter (λ book, isbn book = i) books).

(** Concatenation as the specification words it: the left operand, then the
    books of the right operand whose isbn the left operand does not hold. *)
Definition concat_not_in_left (self other : BookCollection) : BookCollection :=
  self ++ filter (λ book, isbn book ∉ collection_ids self) other.

(** The books of [other], in order, whose isbn is neither in [seen] nor
    carried by an earlier book of [other]. *)
Fixpoint first_unseen (seen : gset string) (other : list Book) : list Book :=
  match other with
  | [] => []
  | book :: rest =>
      if decide (isbn book ∈ seen)
      then first_unseen seen rest
      else book :: first_unseen ({[isbn book]} ∪ seen) rest
  end.

(** The isbns the index holds: the keys of [by_isbn]. *)
Definition index_ids (idx : IndexDict) : gset string := dom (by_isbn idx).

(** The collection and the index of a library hold the same set of isbns. *)
Definition library_synced (lib : Library) : Prop :=
  collection_ids (books lib) = index_ids (indexes lib).

(** The mutating calls a client can make on a [Library]. *)
Inductive library_op : Type :=
  | AddBook (book : Book)
  | RemoveBook (i : string)
  | RemoveRandom (rng : Rng)
  | RefreshIndexes.

(** The library after a call, whether or not the call raised. *)
Definition library_step (o : library_op) (lib : Library) : Library :=
  match o with
  | AddBook book => Library_add_book book lib
  | RemoveBook i => (Library_remove_book i lib).1
  | RemoveRandom rng => (Library_remove_random rng lib).1.2
  | RefreshIndexes => Library_refresh_indexes lib
  end.

Definition library_run (ops : list library_op) (lib : Library) : Library :=
  foldl (λ acc o, library_step o acc) lib ops.

(** Libraries reachable from the empty one, [Library()]: those that a
    sequence of calls produces (lemma [library_reachable_run]). *)
Inductive library_reachable : Library → Prop :=
  | library_reachable_init : library_reachable (Library_init [])
  | library_reachable_step o lib :
      library_reachable lib → library_reachable (library_step o lib).

(** A call that adds no isbn twice: [add_book] only of a book that passes
    the test [add_book_event] makes before it adds,
    [candidate.isbn in library.indexes] being false. *)
Definition library_op_fresh (o : library_op) (lib : Library) : Prop :=
  match o with
  | AddBook book => IndexDict_contains (OfBook book) (indexes lib) = false
  | _ => True
  end.

Inductive library_reachable_fresh : Library → Prop :=
  | library_reachable_fresh_init : library_reachable_fresh (Library_init [])
  | library_reachable_fresh_step o lib :
      library_reachable_fresh lib → library_op_fresh o lib →
      library_reachable_fresh (library_step o lib).

(** The invariant behind [library_synced]: the isbns of the collection are
    pairwise different, and [by_isbn] maps each of them to its book and
    nothing else. *)
Record library_inv (lib : Library) : Prop := mkLibraryInv {
  inv_NoDup : NoDup (isbn <$> books lib);
  inv_by_isbn : ∀ k b,
    by_isbn (indexes lib) !! k = Some b ↔ b ∈ books lib ∧ isbn b = k
}.

(** ** Buckets *)

Lemma elem_of_bucket_add {K : Type} {eqK : EqDecision K} {cntK : Countable K} (key key' : K) (b b' : Book)
    (d : gmap K (gset Book)) :
  b' ∈ bucket key' (bucket_add key b d) ↔
  b' ∈ bucket key' d ∨ (key' = key ∧ b' = b).
Proof.
  unfold bucket, bucket_add.
  destruct (decide (key = key')) as [->|Hne].
  - rewrite lookup_insert_eq. simpl. set_solver.
  - rewrite lookup_insert_ne by done. naive_solver.
Qed.

Lemma elem_of_bucket_discard {K : Type} {eqK : EqDecision K} {cntK : Countable K} (key key' : K) (b b' : Book)
    (d : gmap K (gset Book)) :
  b' ∈ bucket key' (bucket_discard key b d) ↔
  b' ∈ bucket key' d ∧ ¬ (key' = key ∧ b' = b).
Proof.
  unfold bucket, bucket_discard.
  destruct (d !! key) as [s|] eqn:Hs.
  - destruct (decide (s ∖ {[b]} = ∅)) as [Hempty|Hnonempty].
    + destruct (decide (key = key')) as [->|Hne].
      * rewrite lookup_delete_eq, Hs. simpl. set_solver.
      * rewrite lookup_delete_ne by done. naive_solver.
    + destruct (decide (key = key')) as [->|Hne].
      * rewrite lookup_insert_eq, Hs. simpl. set_solver.
      * rewrite lookup_insert_ne by done. naive_solver.
  - destruct (decide (key = key')) as [->|Hne].
    + rewrite Hs. simpl. set_solver.
    + naive_solver.
Qed.

Lemma elem_of_bucket_empty {K : Type} {eqK : EqDecision K} {cntK : Countable K} (key : K) (b : Book) :
  b ∈ bucket key (∅ : gmap K (gset Book)) ↔ False.
Proof. unfold bucket. rewrite lookup_empty. simpl. set_solver. Qed.

Lemma no_empty_bucket_empty {K : Type} {eqK : EqDecision K} {cntK : Countable K} :
  no_empty_bucket (∅ : gmap K (gset Book)).
Proof. intros key s. by rewrite lookup_empty. Qed.

Lemma no_empty_bucket_add {K : Type} {eqK : EqDecision K} {cntK : Countable K} (key : K) (b : Book)
    (d : gmap K (gset Book)) :
  no_empty_bucket d → no_empty_bucket (bucket_add key b d).
Proof.
  intros Hd key' s. unfold bucket_add.
  destruct (decide (key = key')) as [->|Hne].
  - rewrite lookup_insert_eq. intros [= <-]. set_solver.
  - rewrite lookup_insert_ne by done. apply Hd.
Qed.

Lemma no_empty_bucket_discard {K : Type} {eqK : EqDecision K} {cntK : Countable K} (key : K) (b : Book)
    (d : gmap K (gset Book)) :
  no_empty_bucket d → no_empty_bucket (bucket_discard key b d).
Proof.
  intros Hd key' s. unfold bucket_discard.
  destruct (d !! key) as [s0|] eqn:Hs; [|apply Hd].
  destruct (decide (s0 ∖ {[b]} = ∅)) as [Hempty|Hnonempty].
  - destruct (decide (key = key')) as [->|Hne].
    + by rewrite lookup_delete_eq.
    + rewrite lookup_delete_ne by done. apply Hd.
  - destruct (decide (key = key')) as [->|Hne].
    + rewrite lookup_insert_eq. by intros [= <-].
    + rewrite lookup_insert_ne by done. apply Hd.
Qed.

(** ** The invariant of every reachable index *)

Lemma index_wf_init : index_wf IndexDict_init.
Proof.
  split; simpl.
  - intros k b. by rewrite lookup_empty.
  - intros k b. by rewrite lookup_empty.
  - intros key b. by rewrite elem_of_bucket_empty.
  - intros key b. by rewrite elem_of_bucket_empty.
  - apply no_empty_bucket_empty.
  - apply no_empty_bucket_empty.
Qed.

Lemma index_wf_add (book : Book) (idx : IndexDict) :
  index_wf idx → index_wf (IndexDict_add book idx).
Proof.
  intros [Hkey Hfwd Hauthor Hyear Hne_author Hne_year].
  split; simpl.
  - intros k b [[<- <-]|[Hne Hb]]%lookup_insert_Some; eauto.
  - intros k b Hb. unfold in_own_buckets. simpl.
    rewrite !elem_of_bucket_add.
    apply lookup_insert_Some in Hb as [[<- <-]|[Hne Hb]].
    + split; by right.
    + destruct (Hfwd k b Hb). split; by left.
  - intros key b [Hb|[-> ->]]%elem_of_bucket_add; eauto.
  - intros key b [Hb|[-> ->]]%elem_of_bucket_add; eauto.
  - by apply no_empty_bucket_add.
  - by apply no_empty_bucket_add.
Qed.

Lemma index_wf_remove (k : BookOrIsbn) (idx : IndexDict) :
  index_wf idx → index_wf (IndexDict_remove k idx).1.
Proof.
  intros Hwf. unfold IndexDict_remove.
  destruct (by_isbn idx !! isbn_of k) as [x|] eqn:Hx; [|done].
  destruct Hwf as [Hkey Hfwd Hauthor Hyear Hne_author Hne_year].
  split; simpl.
  - intros k' b [Hne Hb]%lookup_delete_Some. eauto.
  - intros k' b [Hne Hb]%lookup_delete_Some. unfold in_own_buckets. simpl.
    rewrite !elem_of_bucket_discard.
    destruct (Hfwd k' b Hb) as [Ha Hy].
    assert (b ≠ x) as Hbx.
    { intros ->. apply Hkey in Hx, Hb. congruence. }
    split; (split; [done|]); by intros [_ ?].
  - intros key b [Hb _]%elem_of_bucket_discard. eauto.
  - intros key b [Hb _]%elem_of_bucket_discard. eauto.
  - by apply no_empty_bucket_discard.
  - by apply no_empty_bucket_discard.
Qed.

Lemma index_wf_foldl_add (l : list Book) (idx : IndexDict) :
  index_wf idx → index_wf (foldl (λ acc book, IndexDict_add book acc) idx l).
Proof.
  revert idx. induction l as [|book l IH]; intros idx Hwf; simpl; [done|].
  by apply IH, index_wf_add.
Qed.

Lemma index_wf_rebuild (l : list Book) (idx : IndexDict) :
  index_wf (IndexDict_rebuild l idx).
Proof. apply index_wf_foldl_add, index_wf_init. Qed.

Lemma index_wf_step (o : index_op) (idx : IndexDict) :
  index_wf idx → index_wf (index_step o idx).
Proof.
  destruct o; simpl;
    auto using index_wf_add, index_wf_remove, index_wf_rebuild.
Qed.

Lemma index_reachable_wf (idx : IndexDict) :
  index_reachable idx → index_wf idx.
Proof.
  induction 1; auto using index_wf_init, index_wf_step.
Qed.

(** ** The invariant when no isbn is stored twice *)

Lemma index_tight_init : index_tight IndexDict_init.
Proof.
  split; [apply index_wf_init| |]; simpl;
    intros key b; by rewrite elem_of_bucket_empty.
Qed.

Lemma index_tight_add (book : Book) (idx : IndexDict) :
  by_isbn idx !! isbn book = None →
  index_tight idx → index_tight (IndexDict_add book idx).
Proof.
  intros Hfresh [Hwf Hta Hty].
  assert (∀ b, in_by_isbn b idx → in_by_isbn b (IndexDict_add book idx)) as Hkeep.
  { unfold in_by_isbn. simpl. intros b Hb.
    rewrite lookup_insert_ne; [done|]. intros Heq. congruence. }
  split; [by apply index_wf_add| |]; simpl.
  - intros key b [Hb|[-> ->]]%elem_of_bucket_add; [by eauto|].
    unfold in_by_isbn. simpl. by rewrite lookup_insert_eq.
  - intros key b [Hb|[-> ->]]%elem_of_bucket_add; [by eauto|].
    unfold in_by_isbn. simpl. by rewrite lookup_insert_eq.
Qed.

Lemma index_tight_remove (k : BookOrIsbn) (idx : IndexDict) :
  index_tight idx → index_tight (IndexDict_remove k idx).1.
Proof.
  intros [Hwf Hta Hty].
  split; [by apply index_wf_remove| |];
    unfold IndexDict_remove;
    (destruct (by_isbn idx !! isbn_of k) as [x|] eqn:Hx; simpl; [|done]).
  - intros key b [Hb Hnot]%elem_of_bucket_discard.
    unfold in_by_isbn. simpl. apply lookup_delete_Some. split; [|by apply (Hta key)].
    intros Heq. apply Hnot. apply Hta in Hb as Hb'. unfold in_by_isbn in Hb'.
    assert (b = x) as -> by congruence.
    split; [|done]. symmetry. by apply (wf_author_key _ Hwf).
  - intros key b [Hb Hnot]%elem_of_bucket_discard.
    unfold in_by_isbn. simpl. apply lookup_delete_Some. split; [|by apply (Hty key)].
    intros Heq. apply Hnot. apply Hty in Hb as Hb'. unfold in_by_isbn in Hb'.
    assert (b = x) as -> by congruence.
    split; [|done]. symmetry. by apply (wf_year_key _ Hwf).
Qed.

Lemma index_tight_foldl_add (l : list Book) (idx : IndexDict) :
  NoDup (isbn <$> l) →
  (∀ b, b ∈ l → by_isbn idx !! isbn b = None) →
  index_tight idx →
  index_tight (foldl (λ acc book, IndexDict_add book acc) idx l).
Proof.
  revert idx. induction l as [|book l IH]; intros idx Hnd Hfresh Ht; simpl; [done|].
  rewrite fmap_cons in Hnd. apply NoDup_cons in Hnd as [Hnotin Hnd].
  apply IH; [done| |].
  - intros b Hb. simpl. rewrite lookup_insert_ne.
    + apply Hfresh. by right.
    + intros Heq. apply Hnotin. rewrite Heq. by apply list_elem_of_fmap_2.
  - apply index_tight_add; [|done]. apply Hfresh. by left.
Qed.

Lemma index_tight_rebuild (l : list Book) (idx : IndexDict) :
  NoDup (isbn <$> l) → index_tight (IndexDict_rebuild l idx).
Proof.
  intros Hnd. apply index_tight_foldl_add; [done| |apply index_tight_init].
  intros b _. simpl. apply lookup_empty.
Qed.

Lemma index_tight_step (o : index_op) (idx : IndexDict) :
  index_op_fresh o idx → index_tight idx → index_tight (index_step o idx).
Proof.
  destruct o; simpl;
    auto using index_tight_add, index_tight_remove, index_tight_rebuild.
Qed.

Lemma index_reachable_fresh_tight (idx : IndexDict) :
  index_reachable_fresh idx → index_tight idx.
Proof.
  induction 1; auto using index_tight_init, index_tight_step.
Qed.

Lemma index_tight_consistent (idx : IndexDict) :
  index_tight idx → index_consistent idx.
Proof.
  intros [Hwf Hta Hty]. split; [|split].
  - intros b. split.
    + apply (wf_forward _ Hwf).
    + intros [Ha _]. eauto.
  - apply (wf_author_nonempty _ Hwf).
  - apply (wf_year_nonempty _ Hwf).
Qed.

(** ** IndexDict: the claims *)

(** A reachable index stores a book under its own isbn and in both of its
    buckets. *)
Lemma index_reachable_stored (idx : IndexDict) (k : string) (b : Book) :
  index_reachable idx → by_isbn idx !! k = Some b →
  isbn b = k ∧ in_own_buckets b idx.
Proof.
  intros Hwf%index_reachable_wf Hb. split.
  - by apply (wf_key _ Hwf).
  - by apply (wf_forward _ Hwf k).
Qed.

Lemma index_reachable_fresh_reachable (idx : IndexDict) :
  index_reachable_fresh idx → index_reachable idx.
Proof. induction 1; by constructor. Qed.

(** C4. Adding [new] to an index that stores [old] under the same isbn
    replaces the [by_isbn] entry by [new] (last write wins), puts [new] into
    the buckets of its author and year, and purges nothing: every bucket
    holds what it held before, plus [new] in its two buckets. So [old], which
    is in the buckets of its author and year in every reachable index, is
    still there after the call, and when the two records differ it is there
    without being in [by_isbn]. *)
Theorem IndexDict_add_same_isbn (idx : IndexDict) (k : string) (old new : Book) :
  by_isbn idx !! k = Some old →
  isbn old = k →
  isbn new = k →
  old ≠ new →
  let idx' := IndexDict_add new idx in
  by_isbn idx' !! k = Some new ∧
  in_own_buckets new idx' ∧
  (in_own_buckets old idx → in_own_buckets old idx') ∧
  (index_reachable idx → in_own_buckets old idx') ∧
  ¬ in_by_isbn old idx' ∧
  (∀ key b, b ∈ bucket key (by_author idx') ↔
            b ∈ bucket key (by_author idx) ∨ (key = lower (author new) ∧ b = new)) ∧
  (∀ key b, b ∈ bucket key (by_year idx') ↔
            b ∈ bucket key (by_year idx) ∨ (key = year new ∧ b = new)).
Proof.
  intros Hold Hko Hkn Hdiff idx'. subst idx'.
  assert (in_own_buckets old idx → in_own_buckets old (IndexDict_add new idx)) as Hkept.
  { unfold in_own_buckets. simpl. intros [Hoa Hoy].
    split; apply elem_of_bucket_add; by left. }
  split_and!.
  - simpl. rewrite <- Hkn. apply lookup_insert_eq.
  - unfold in_own_buckets. simpl. split; apply elem_of_bucket_add; by right.
  - done.
  - intros Hreach. apply Hkept. by apply (index_reachable_stored idx k).
  - unfold in_by_isbn. simpl. rewrite Hko, <- Hkn, lookup_insert_eq. congruence.
  - intros key b. simpl. apply elem_of_bucket_add.
  - intros key b. simpl. apply elem_of_bucket_add.
Qed.

(** C5, as amended. In every index reachable from the empty one by [add],
    [remove] and [rebuild], a book that is in [by_isbn] is in the bucket of
    its lowercased author and in the bucket of its year, and no bucket is
    empty. When in addition every [add] was of an isbn that [by_isbn] did not
    hold, and every [rebuild] from books with pairwise different isbns, the
    converse holds too: a book is in [by_isbn] if and only if it is in its
    two buckets. *)
Theorem index_reachable_consistent (idx : IndexDict) :
  (index_reachable idx →
     (∀ b, in_by_isbn b idx → in_own_buckets b idx) ∧
     no_empty_bucket (by_author idx) ∧
     no_empty_bucket (by_year idx)) ∧
  (index_reachable_fresh idx → index_consistent idx).
Proof.
  split.
  - intros Hwf%index_reachable_wf. split_and!.
    + intros b. apply (wf_forward _ Hwf).
    + apply (wf_author_nonempty _ Hwf).
    + apply (wf_year_nonempty _ Hwf).
  - intros Hreach. by apply index_tight_consistent, index_reachable_fresh_tight.
Qed.

(** C8, as amended. [get_by_author] and [get_by_year] are total lookups.
    On every index reachable from the empty one by [add], [remove] and
    [rebuild], every book that [get_by_author a] returns has an author equal
    to [a] up to case, every book of [by_isbn] with such an author is
    returned, a book just added is found under any casing of its author, and
    no book is returned twice; [get_by_year y] returns the bucket of [y],
    whose books all have that year and which holds every book of [by_isbn]
    of that year, and is empty when there is no such bucket. When in
    addition every [add] was of an isbn that [by_isbn] did not hold, and
    every [rebuild] from books with pairwise different isbns, the two
    lookups return exactly the books of [by_isbn] whose author equals [a]
    up to case, respectively whose year is [y], and nothing when [by_isbn]
    holds no such book. *)
Theorem IndexDict_get_by_author_year (idx : IndexDict) (a : string) (y : Z) :
  (index_reachable idx →
     (∀ b, b ∈ IndexDict_get_by_author a idx → lower (author b) = lower a) ∧
     (∀ k b, by_isbn idx !! k = Some b → lower (author b) = lower a →
             b ∈ IndexDict_get_by_author a idx) ∧
     (∀ book a', lower a' = lower (author book) →
             book ∈ IndexDict_get_by_author a' (IndexDict_add book idx)) ∧
     NoDup (IndexDict_get_by_author a idx) ∧
     (∀ b, b ∈ IndexDict_get_by_year y idx ↔ b ∈ bucket y (by_year idx)) ∧
     (∀ b, b ∈ IndexDict_get_by_year y idx → year b = y) ∧
     (∀ k b, by_isbn idx !! k = Some b → year b = y →
             b ∈ IndexDict_get_by_year y idx) ∧
     (by_year idx !! y = None → IndexDict_get_by_year y idx = []) ∧
     NoDup (IndexDict_get_by_year y idx)) ∧
  (index_reachable_fresh idx →
     (∀ b, b ∈ IndexDict_get_by_author a idx ↔
           (∃ k, by_isbn idx !! k = Some b) ∧ lower (author b) = lower a) ∧
     ((∀ k b, by_isbn idx !! k = Some b → lower (author b) ≠ lower a) →
           IndexDict_get_by_author a idx = []) ∧
     (∀ b, b ∈ IndexDict_get_by_year y idx ↔
           (∃ k, by_isbn idx !! k = Some b) ∧ year b = y) ∧
     ((∀ k b, by_isbn idx !! k = Some b → year b ≠ y) →
           IndexDict_get_by_year y idx = [])).
Proof.
  unfold IndexDict_get_by_author, IndexDict_get_by_year. split.
  - intros Hwf%index_reachable_wf. split_and!.
    + intros b Hb%elem_of_elements. by apply (wf_author_key _ Hwf).
    + intros k b Hb Ha. apply elem_of_elements. rewrite <- Ha.
      by apply (wf_forward _ Hwf k).
    + intros book a' Ha'. apply elem_of_elements. simpl.
      apply elem_of_bucket_add. by right.
    + apply NoDup_elements.
    + intros b. apply elem_of_elements.
    + intros b Hb%elem_of_elements. by apply (wf_year_key _ Hwf).
    + intros k b Hb Hy. apply elem_of_elements. rewrite <- Hy.
      by apply (wf_forward _ Hwf k).
    + intros Hnone. unfold bucket. rewrite Hnone. simpl. apply elements_empty.
    + apply NoDup_elements.
  - intros [Hwf Hta Hty]%index_reachable_fresh_tight.
    assert (∀ b, b ∈ bucket (lower a) (by_author idx) ↔
                 (∃ k, by_isbn idx !! k = Some b) ∧ lower (author b) = lower a)
      as Hauthor.
    { intros b. split.
      - intros Hb. split; [|by apply (wf_author_key _ Hwf)].
        exists (isbn b). by apply (Hta (lower a)).
      - intros [[k Hb] <-]. by apply (wf_forward _ Hwf k). }
    assert (∀ b, b ∈ bucket y (by_year idx) ↔
                 (∃ k, by_isbn idx !! k = Some b) ∧ year b = y) as Hyear.
    { intros b. split.
      - intros Hb. split; [|by apply (wf_year_key _ Hwf)].
        exists (isbn b). by apply (Hty y).
      - intros [[k Hb] <-]. by apply (wf_forward _ Hwf k). }
    split_and!.
    + intros b. by rewrite elem_of_elements.
    + intros Hnone. apply elements_empty_iff, set_equiv.
      intros b. split; [|set_solver].
      intros [[k Hb] Ha]%Hauthor. by destruct (Hnone k b).
    + intros b. by rewrite elem_of_elements.
    + intros Hnone. apply elements_empty_iff, set_equiv.
      intros b. split; [|set_solver].
      intros [[k Hb] Hy]%Hyear. by destruct (Hnone k b).
Qed.

(** C10. [remove] of an isbn that is no key of [by_isbn] raises KeyError
    and returns the index as it was: [by_isbn], [by_author] and [by_year]
    are untouched. *)
Theorem IndexDict_remove_absent (idx : IndexDict) (k : BookOrIsbn) :
  by_isbn idx !! isbn_of k = None →
  IndexDict_remove k idx = (idx, Raise KeyError).
Proof. intros Hnone. unfold IndexDict_remove. by rewrite Hnone. Qed.

(** ** BookCollection *)

Lemma BookCollection_contains_true (k : BookOrIsbn) (books : BookCollection) :
  BookCollection_contains k books = true ↔ isbn_of k ∈ collection_ids books.
Proof.
  unfold BookCollection_contains, collection_ids.
  induction books as [|book books IH]; simpl.
  - split; [done|]. set_solver.
  - rewrite orb_true_iff, IH, bool_decide_eq_true. set_solver.
Qed.

Lemma BookCollection_contains_false (k : BookOrIsbn) (books : BookCollection) :
  BookCollection_contains k books = false ↔ isbn_of k ∉ collection_ids books.
Proof.
  rewrite <- BookCollection_contains_true. by destruct (BookCollection_contains k books).
Qed.

Lemma collection_ids_add (book : Book) (books : BookCollection) :
  collection_ids (BookCollection_add book books) = {[isbn book]} ∪ collection_ids books.
Proof.
  unfold collection_ids, BookCollection_add.
  rewrite fmap_app, list_to_set_app_L. simpl. set_solver.
Qed.

Lemma BookCollection_concat_first_unseen (self other : BookCollection) :
  BookCollection_concat self other = self ++ first_unseen (collection_ids self) other.
Proof.
  unfold BookCollection_concat. revert self.
  induction other as [|book rest IH]; intros self; simpl.
  - by rewrite app_nil_r.
  - destruct (decide (isbn book ∈ collection_ids self)) as [Hin|Hnotin].
    + apply (BookCollection_contains_true (OfBook book)) in Hin as ->. apply IH.
    + apply (BookCollection_contains_false (OfBook book)) in Hnotin as ->.
      rewrite IH, collection_ids_add. unfold BookCollection_add.
      by rewrite <- app_assoc.
Qed.

Lemma first_unseen_length (seen : gset string) (other : list Book) :
  (length (first_unseen seen other) ≤ length other)%nat.
Proof.
  revert seen. induction other as [|book rest IH]; intros seen; simpl; [done|].
  destruct (decide (isbn book ∈ seen)).
  - specialize (IH seen). lia.
  - simpl. specialize (IH ({[isbn book]} ∪ seen)). lia.
Qed.

Lemma first_unseen_ids (seen : gset string) (other : list Book) :
  seen ∪ collection_ids (first_unseen seen other) = seen ∪ collection_ids other.
Proof.
  revert seen. induction other as [|book rest IH]; intros seen; simpl; [done|].
  unfold collection_ids in *. destruct (decide (isbn book ∈ seen)); simpl.
  - rewrite IH. set_solver.
  - specialize (IH ({[isbn book]} ∪ seen)). set_solver.
Qed.

Lemma filter_ext_elem_of {A : Type} (P Q : A → Prop)
    `{!∀ x, Decision (P x)} `{!∀ x, Decision (Q x)} (l : list A) :
  (∀ x, x ∈ l → P x ↔ Q x) → filter P l = filter Q l.
Proof.
  induction l as [|x l IH]; intros HPQ; [done|].
  rewrite !filter_cons, IH by (intros y Hy; apply HPQ; by right).
  destruct (decide (P x)) as [HP|HP], (decide (Q x)) as [HQ|HQ]; try done.
  - destruct HQ. apply HPQ; [by left|done].
  - destruct HP. apply HPQ; [by left|done].
Qed.

Lemma first_unseen_NoDup (seen : gset string) (other : list Book) :
  NoDup (isbn <$> other) →
  first_unseen seen other = filter (λ book, isbn book ∉ seen) other.
Proof.
  revert seen. induction other as [|book rest IH]; intros seen Hnd; simpl; [done|].
  rewrite fmap_cons in Hnd. apply NoDup_cons in Hnd as [Hnotin Hnd].
  rewrite filter_cons. destruct (decide (isbn book ∈ seen)) as [Hin|Hout].
  - rewrite decide_False by (by intros ?). by apply IH.
  - rewrite decide_True by done. f_equal. rewrite (IH _ Hnd).
    apply filter_ext_elem_of. intros b Hb.
    assert (isbn b ≠ isbn book).
    { intros Heq. apply Hnotin. rewrite <- Heq. by apply list_elem_of_fmap_2. }
    set_solver.
Qed.

(** C6, as amended. [A + B] is a new collection made of the elements of [A]
    in their order, followed by those elements of [B], in the order of [B],
    whose isbn is neither in [A] nor carried by an earlier element of [B];
    it is the concatenation the specification words whenever the isbns of
    [B] are pairwise different. In every case its length is at most
    [len(A) + len(B)], and its isbns are those of [A] and of [B]. *)
Theorem BookCollection_concat_spec (A B : BookCollection) :
  BookCollection_concat A B = A ++ first_unseen (collection_ids A) B ∧
  (NoDup (isbn <$> B) → BookCollection_concat A B = concat_not_in_left A B) ∧
  (length (BookCollection_concat A B) ≤ length A + length B)%nat ∧
  collection_ids (BookCollection_concat A B) = collection_ids A ∪ collection_ids B.
Proof.
  rewrite BookCollection_concat_first_unseen. repeat split.
  - intros Hnd. unfold concat_not_in_left. by rewrite first_unseen_NoDup.
  - rewrite length_app. pose proof (first_unseen_length (collection_ids A) B). lia.
  - rewrite <- first_unseen_ids. unfold collection_ids.
    by rewrite fmap_app, list_to_set_app_L.
Qed.

(** ** Lists: popping an element *)

Lemma list_pop_Some {A : Type} (idx : nat) (l l' : list A) (x : A) :
  list_pop idx l = Some (x, l') ↔ l !! idx = Some x ∧ l' = delete idx l.
Proof.
  unfold list_pop. destruct (l !! idx) as [y|]; naive_solver.
Qed.

Lemma delete_middle {A : Type} (idx : nat) (l : list A) (x : A) :
  l !! idx = Some x → ∃ l1 l2, l = l1 ++ x :: l2 ∧ delete idx l = l1 ++ l2.
Proof.
  intros Hx. exists (take idx l), (drop (S idx) l). split.
  - by rewrite take_drop_middle.
  - apply delete_take_drop.
Qed.

Lemma NoDup_isbn_delete (idx : nat) (l : list Book) (x : Book) :
  NoDup (isbn <$> l) → l !! idx = Some x →
  NoDup (isbn <$> delete idx l) ∧
  (∀ y, y ∈ delete idx l ↔ y ∈ l ∧ isbn y ≠ isbn x).
Proof.
  intros Hnd (l1 & l2 & -> & ->)%delete_middle.
  rewrite fmap_app, fmap_cons in Hnd.
  apply NoDup_app in Hnd as (Hnd1 & Hdisj & [Hx Hnd2]%NoDup_cons).
  split.
  - rewrite fmap_app. apply NoDup_app. split_and!; [done| |done].
    intros i Hi Hi2. apply (Hdisj i Hi). by right.
  - intros y. rewrite !elem_of_app, elem_of_cons. split.
    + intros [Hy|Hy]; (split; [tauto|]); intros Heq.
      * apply (Hdisj (isbn y)); [by apply list_elem_of_fmap_2|]. rewrite Heq. by left.
      * apply Hx. rewrite <- Heq. by apply list_elem_of_fmap_2.
    + intros [[Hy|[->|Hy]] Hne]; [by left|done|by right].
Qed.

Lemma filter_isbn_nil (i : string) (l : list Book) :
  i ∉ isbn <$> l → filter (λ y, isbn y = i) l = [].
Proof.
  induction l as [|x l IH]; intros Hi; [done|].
  rewrite fmap_cons, not_elem_of_cons in Hi. destruct Hi as [Hne Hi].
  rewrite filter_cons, decide_False by done. by apply IH.
Qed.

Lemma filter_isbn_NoDup (l : list Book) (b : Book) :
  NoDup (isbn <$> l) → b ∈ l → filter (λ y, isbn y = isbn b) l = [b].
Proof.
  induction l as [|x l IH]; intros Hnd Hb; [by apply elem_of_nil in Hb|].
  rewrite fmap_cons in Hnd. apply NoDup_cons in Hnd as [Hx Hnd].
  rewrite filter_cons. apply elem_of_cons in Hb as [->|Hb].
  - rewrite decide_True by done. f_equal. by apply filter_isbn_nil.
  - rewrite decide_False; [by apply IH|].
    intros Heq. apply Hx. rewrite Heq. by apply list_elem_of_fmap_2.
Qed.

Lemma elem_of_collection_ids (i : string) (l : list Book) :
  i ∈ collection_ids l ↔ ∃ b, b ∈ l ∧ isbn b = i.
Proof.
  unfold collection_ids. rewrite elem_of_list_to_set, list_elem_of_fmap.
  naive_solver.
Qed.

(** ** What [IndexDict.rebuild] leaves in the three dictionaries *)

Lemma by_isbn_foldl_add (l : list Book) (idx : IndexDict) (k : string) :
  by_isbn (foldl (λ acc book, IndexDict_add book acc) idx l) !! k =
  match last (filter (λ b, isbn b = k) l) with
  | Some b => Some b
  | None => by_isbn idx !! k
  end.
Proof.
  induction l as [|x l IH] using rev_ind; [done|].
  rewrite foldl_app, filter_app, filter_cons, filter_nil. simpl.
  destruct (decide (isbn x = k)) as [<-|Hne].
  - by rewrite last_snoc, lookup_insert_eq.
  - by rewrite app_nil_r, lookup_insert_ne.
Qed.

Lemma by_author_foldl_add (l : list Book) (idx : IndexDict) (key : string) (b : Book) :
  b ∈ bucket key (by_author (foldl (λ acc book, IndexDict_add book acc) idx l)) ↔
  b ∈ bucket key (by_author idx) ∨ (b ∈ l ∧ lower (author b) = key).
Proof.
  induction l as [|x l IH] using rev_ind.
  - simpl. split; [by left|]. intros [?|[[]%elem_of_nil _]]. done.
  - rewrite foldl_app. simpl. rewrite elem_of_bucket_add, IH, elem_of_app.
    rewrite list_elem_of_singleton. naive_solver.
Qed.

Lemma by_year_foldl_add (l : list Book) (idx : IndexDict) (key : Z) (b : Book) :
  b ∈ bucket key (by_year (foldl (λ acc book, IndexDict_add book acc) idx l)) ↔
  b ∈ bucket key (by_year idx) ∨ (b ∈ l ∧ year b = key).
Proof.
  induction l as [|x l IH] using rev_ind.
  - simpl. split; [by left|]. intros [?|[[]%elem_of_nil _]]. done.
  - rewrite foldl_app. simpl. rewrite elem_of_bucket_add, IH, elem_of_app.
    rewrite list_elem_of_singleton. naive_solver.
Qed.

Lemma by_isbn_rebuild (l : list Book) (idx : IndexDict) (k : string) :
  by_isbn (IndexDict_rebuild l idx) !! k = last (filter (λ b, isbn b = k) l).
Proof.
  unfold IndexDict_rebuild. rewrite by_isbn_foldl_add. simpl.
  rewrite lookup_empty. by destruct (last _).
Qed.

(** ** What [BookCollection.remove] returns *)

Lemma BookCollection_remove_Return (k : BookOrIsbn) (l l' : BookCollection) (b : Book) :
  BookCollection_remove k l = (l', Return b) →
  ∃ idx, l !! idx = Some b ∧ isbn b = isbn_of k ∧ l' = delete idx l.
Proof.
  unfold BookCollection_remove.
  destruct (list_find _ l) as [[idx x]|] eqn:Hfind; [|done].
  apply list_find_Some in Hfind as (Hx & Hisbn & _).
  unfold list_pop. rewrite Hx. intros [= <- <-]. eauto.
Qed.

Lemma BookCollection_remove_Raise (k : BookOrIsbn) (l l' : BookCollection) (e : exn) :
  BookCollection_remove k l = (l', Raise e) →
  l' = l ∧ e = KeyError ∧ isbn_of k ∉ collection_ids l.
Proof.
  unfold BookCollection_remove.
  destruct (list_find _ l) as [[idx x]|] eqn:Hfind.
  - apply list_find_Some in Hfind as (Hx & _). unfold list_pop. by rewrite Hx.
  - intros [= <- <-]. split_and!; [done..|].
    apply list_find_None in Hfind. rewrite Forall_forall in Hfind.
    intros (b & Hb & Heq)%elem_of_collection_ids. by apply (Hfind b).
Qed.

Lemma BookCollection_remove_absent (k : BookOrIsbn) (l : BookCollection) :
  isbn_of k ∉ collection_ids l →
  BookCollection_remove k l = (l, Raise KeyError).
Proof.
  intros Hk. destruct (BookCollection_remove k l) as [l' [b|e]] eqn:Hrem.
  - apply BookCollection_remove_Return in Hrem as (idx & Hb & Heq & _).
    destruct Hk. apply elem_of_collection_ids. exists b. split; [|done].
    apply list_elem_of_lookup. eauto.
  - by apply BookCollection_remove_Raise in Hrem as (-> & -> & _).
Qed.

Lemma BookCollection_remove_after_add (b : Book) (l : BookCollection) :
  isbn b ∉ collection_ids l →
  BookCollection_remove (OfIsbn (isbn b)) (BookCollection_add b l) = (l, Return b).
Proof.
  intros Hb. unfold BookCollection_remove, BookCollection_add. simpl.
  assert (list_find (λ candidate, isbn candidate = isbn b) (l ++ [b])
          = Some (length l, b)) as ->.
  { apply list_find_Some. split_and!; [|done|].
    - by rewrite lookup_app_r, Nat.sub_diag.
    - intros j y Hy Hj Heq. rewrite lookup_app_l in Hy by done.
      apply Hb, elem_of_collection_ids. exists y. split; [|done].
      apply list_elem_of_lookup. eauto. }
  unfold list_pop. rewrite lookup_app_r, Nat.sub_diag by done. simpl.
  rewrite delete_take_drop, take_app_length, drop_app_ge by lia.
  replace (S (length l) - length l)%nat with 1%nat by lia. simpl.
  by rewrite app_nil_r.
Qed.

(** ** The invariant of a library to which no isbn is added twice *)

Lemma library_inv_synced (lib : Library) :
  library_inv lib → library_synced lib.
Proof.
  intros [Hnd Hmap]. unfold library_synced, index_ids. apply set_eq. intros i.
  rewrite elem_of_collection_ids, elem_of_dom. unfold is_Some.
  split; intros [b Hb]; exists b; by apply Hmap.
Qed.

Lemma library_inv_init : library_inv (Library_init []).
Proof.
  split; simpl.
  - apply NoDup_nil_2.
  - intros k b. rewrite lookup_empty, elem_of_nil. naive_solver.
Qed.

Lemma library_inv_add (book : Book) (lib : Library) :
  IndexDict_contains (OfBook book) (indexes lib) = false →
  library_inv lib → library_inv (Library_add_book book lib).
Proof.
  unfold IndexDict_contains. rewrite bool_decide_eq_false, <- eq_None_not_Some. simpl.
  intros Hfresh [Hnd Hmap].
  assert (∀ b, b ∈ books lib → isbn b ≠ isbn book) as Hother.
  { intros b Hb Heq. assert (by_isbn (indexes lib) !! isbn book = Some b) as Hsome
      by by apply Hmap. congruence. }
  split; simpl; unfold BookCollection_add.
  - rewrite fmap_app. apply NoDup_app. split_and!; [done| |apply NoDup_singleton].
    intros i (b & -> & Hb)%list_elem_of_fmap [= Heq]%list_elem_of_singleton.
    by apply (Hother b).
  - intros k b. rewrite lookup_insert_Some, elem_of_app, list_elem_of_singleton, Hmap.
    split.
    + intros [[<- <-]|[Hne [Hb <-]]]; auto.
    + intros [[Hb| ->] <-]; [right|left]; auto.
      split; [|done]. intros Heq. by apply (Hother b).
Qed.

Lemma library_inv_pop (k : BookOrIsbn) (idx : nat) (b : Book) (lib : Library) :
  library_inv lib → books lib !! idx = Some b → isbn_of k = isbn b →
  (IndexDict_remove k (indexes lib)).2 = Return b ∧
  library_inv {| books := delete idx (books lib);
                 indexes := (IndexDict_remove k (indexes lib)).1 |}.
Proof.
  intros [Hnd Hmap] Hb Hk.
  assert (by_isbn (indexes lib) !! isbn_of k = Some b) as Hstored.
  { apply Hmap. split; [|done]. apply list_elem_of_lookup. eauto. }
  unfold IndexDict_remove. rewrite Hstored. simpl. split; [done|].
  destruct (NoDup_isbn_delete idx (books lib) b Hnd Hb) as [Hnd' Hin].
  split; simpl; [done|].
  intros k' b'. rewrite lookup_delete_Some, Hmap, Hin, Hk. naive_solver.
Qed.

Lemma library_inv_remove_book (i : string) (lib : Library) :
  library_inv lib → library_inv (Library_remove_book i lib).1.
Proof.
  intros Hinv. unfold Library_remove_book.
  destruct (BookCollection_remove (OfIsbn i) (books lib)) as [l' [b|e]] eqn:Hrem.
  - apply BookCollection_remove_Return in Hrem as (idx & Hb & Heq & ->).
    destruct (library_inv_pop (OfIsbn i) idx b lib Hinv Hb) as [Hret Hinv']; [done|].
    destruct (IndexDict_remove (OfIsbn i) (indexes lib)) as [idx' [b'|e]]; done.
  - apply BookCollection_remove_Raise in Hrem as (-> & _). by destruct lib.
Qed.

Lemma library_inv_remove_random (rng : Rng) (lib : Library) :
  library_inv lib → library_inv (Library_remove_random rng lib).1.2.
Proof.
  intros Hinv. unfold Library_remove_random, BookCollection_pop_random.
  destruct (books lib) as [|x l] eqn:Hbooks.
  { simpl. rewrite <- Hbooks. by destruct lib. }
  rewrite <- Hbooks.
  destruct (randrange rng (length (books lib))) as [index rng'].
  destruct (list_pop index (books lib)) as [[b l']|] eqn:Hpop.
  - apply list_pop_Some in Hpop as [Hb ->].
    destruct (library_inv_pop (OfBook b) index b lib Hinv Hb) as [Hret Hinv']; [done|].
    destruct (IndexDict_remove (OfBook b) (indexes lib)) as [idx' [b'|e]]; done.
  - simpl. by destruct lib.
Qed.

Lemma library_inv_refresh (lib : Library) :
  library_inv lib → library_inv (Library_refresh_indexes lib).
Proof.
  intros [Hnd Hmap]. split; simpl; [done|].
  intros k b. rewrite by_isbn_rebuild. split.
  - intros Hlast%last_Some_elem_of. by apply list_elem_of_filter in Hlast as [? ?].
  - intros [Hb <-]. by rewrite filter_isbn_NoDup.
Qed.

Lemma library_inv_step (o : library_op) (lib : Library) :
  library_op_fresh o lib → library_inv lib → library_inv (library_step o lib).
Proof.
  destruct o; simpl;
    auto using library_inv_add, library_inv_remove_book,
      library_inv_remove_random, library_inv_refresh.
Qed.

Lemma library_reachable_fresh_inv (lib : Library) :
  library_reachable_fresh lib → library_inv lib.
Proof.
  induction 1; auto using library_inv_init, library_inv_step.
Qed.

Lemma index_reachable_run (idx : IndexDict) :
  index_reachable idx ↔ ∃ ops, idx = index_run ops IndexDict_init.
Proof.
  unfold index_run. split.
  - induction 1 as [|o idx _ [ops ->]].
    + by exists [].
    + exists (ops ++ [o]). by rewrite foldl_app.
  - intros [ops ->]. induction ops as [|o ops IH] using rev_ind.
    + apply index_reachable_init.
    + rewrite foldl_app. by apply index_reachable_step.
Qed.

Lemma library_reachable_run (lib : Library) :
  library_reachable lib ↔ ∃ ops, lib = library_run ops (Library_init []).
Proof.
  unfold library_run. split.
  - induction 1 as [|o lib _ [ops ->]].
    + by exists [].
    + exists (ops ++ [o]). by rewrite foldl_app.
  - intros [ops ->]. induction ops as [|o ops IH] using rev_ind.
    + apply library_reachable_init.
    + rewrite foldl_app. by apply library_reachable_step.
Qed.

Lemma count_isbn_add (i : string) (book : Book) (l : BookCollection) :
  count_isbn i (BookCollection_add book l) =
  (count_isbn i l + (if decide (isbn book = i) then 1 else 0))%nat.
Proof.
  unfold count_isbn, BookCollection_add.
  rewrite filter_app, length_app, filter_cons, filter_nil.
  by destruct (decide (isbn book = i)).
Qed.

Lemma count_isbn_zero (i : string) (l : BookCollection) :
  count_isbn i l = 0%nat ↔ i ∉ collection_ids l.
Proof.
  unfold count_isbn. rewrite length_zero_iff_nil, elem_of_collection_ids. split.
  - intros Hnil (b & Hb & Heq). by apply (filter_nil_not_elem_of _ _ b Hnil).
  - intros Hnone. apply filter_isbn_nil.
    intros (b & -> & Hb)%list_elem_of_fmap. apply Hnone. eauto.
Qed.

Lemma count_isbn_delete (i : string) (idx : nat) (b : Book) (l : BookCollection) :
  l !! idx = Some b → isbn b = i →
  count_isbn i l = S (count_isbn i (delete idx l)).
Proof.
  intros (l1 & l2 & -> & ->)%delete_middle Heq. unfold count_isbn.
  rewrite !filter_app, filter_cons, decide_True, !length_app by done.
  simpl. lia.
Qed.

(** ** Library: the claims *)

Lemma library_synced_add (book : Book) (lib : Library) :
  library_synced lib → library_synced (Library_add_book book lib).
Proof.
  unfold library_synced, index_ids. simpl. intros Hsync.
  by rewrite collection_ids_add, dom_insert_L, Hsync.
Qed.

Lemma library_synced_refresh (lib : Library) :
  library_synced (Library_refresh_indexes lib).
Proof.
  unfold library_synced, index_ids. simpl. apply set_eq. intros i.
  rewrite elem_of_collection_ids, elem_of_dom, by_isbn_rebuild. split.
  - intros (b & Hb & Heq). apply last_is_Some. intros Hnil.
    by apply (filter_nil_not_elem_of _ _ b Hnil).
  - intros [b Hlast%last_Some_elem_of]. exists b.
    by apply list_elem_of_filter in Hlast as [? ?].
Qed.

(** C1, as amended. In every library reachable from the empty one by
    [add_book] of books whose isbn the index does not hold yet,
    [remove_book], [remove_random] and [refresh_indexes], the isbns of the
    collection are those of [by_isbn], and each such call made on it, raising
    or not, leads to a library where they are again. On any library at all,
    [add_book] preserves the equality and [refresh_indexes] establishes it. *)
Theorem library_synced_preserved (lib : Library) :
  (library_reachable_fresh lib →
     library_synced lib ∧
     ∀ o, library_op_fresh o lib → library_synced (library_step o lib)) ∧
  (∀ book, library_synced lib → library_synced (Library_add_book book lib)) ∧
  library_synced (Library_refresh_indexes lib).
Proof.
  split_and!.
  - intros Hinv%library_reachable_fresh_inv. split.
    + by apply library_inv_synced.
    + intros o Ho. by apply library_inv_synced, library_inv_step.
  - intros book. apply library_synced_add.
  - apply library_synced_refresh.
Qed.

(** C2, as amended. Right after [add_book(b)], on any library,
    [get_by_isbn(b.isbn)] returns [b], and a full scan of the collection
    finds one more entry with the isbn of [b] than before the call: exactly
    one when the collection held none. *)
Theorem Library_add_book_found (lib : Library) (b : Book) :
  Library_get_by_isbn (isbn b) (Library_add_book b lib) = Return b ∧
  count_isbn (isbn b) (books (Library_add_book b lib)) =
    S (count_isbn (isbn b) (books lib)) ∧
  (BookCollection_contains (OfBook b) (books lib) = false →
   count_isbn (isbn b) (books (Library_add_book b lib)) = 1%nat).
Proof.
  assert (count_isbn (isbn b) (books (Library_add_book b lib)) =
          S (count_isbn (isbn b) (books lib))) as Hcount.
  { simpl. rewrite count_isbn_add, decide_True by done. lia. }
  split_and!; [|done|].
  - unfold Library_get_by_isbn, IndexDict_getitem. simpl.
    by rewrite lookup_insert_eq.
  - intros Hnew%BookCollection_contains_false. simpl in Hnew.
    apply count_isbn_zero in Hnew. by rewrite Hcount, Hnew.
Qed.

(** C3, as amended. When the collection holds at most one entry with the
    isbn, a successful [remove_book] leaves neither the collection nor the
    index with an entry for it; [get_by_isbn] of it then raises KeyError, and
    so does a second [remove_book], which changes nothing. The first
    [remove_book] of a book just added under an isbn that the collection did
    not hold succeeds and returns that book. *)
Theorem Library_remove_book_gone (lib lib' : Library) (i : string) (removed : Book) :
  (count_isbn i (books lib) ≤ 1)%nat →
  Library_remove_book i lib = (lib', Return removed) →
  BookCollection_contains (OfIsbn i) (books lib') = false ∧
  IndexDict_contains (OfIsbn i) (indexes lib') = false ∧
  Library_get_by_isbn i lib' = Raise KeyError ∧
  Library_remove_book i lib' = (lib', Raise KeyError) ∧
  (∀ lib0 b, BookCollection_contains (OfBook b) (books lib0) = false →
     ∃ lib1, Library_remove_book (isbn b) (Library_add_book b lib0)
             = (lib1, Return b)).
Proof.
  intros Hcount. unfold Library_remove_book at 1.
  destruct (BookCollection_remove (OfIsbn i) (books lib)) as [l' [b|e]] eqn:Hrem;
    [|done].
  apply BookCollection_remove_Return in Hrem as (idx & Hb & Heq & ->).
  unfold IndexDict_remove. simpl.
  destruct (by_isbn (indexes lib) !! i) as [x|] eqn:Hx; [|done].
  intros [= <- <-]. simpl.
  assert (i ∉ collection_ids (delete idx (books lib))) as Hgone.
  { apply count_isbn_zero. rewrite (count_isbn_delete i idx b) in Hcount by done. lia. }
  split_and!.
  - by apply (BookCollection_contains_false (OfIsbn i)).
  - unfold IndexDict_contains. simpl. rewrite lookup_delete_eq.
    apply bool_decide_eq_false. by intros [? ?].
  - unfold Library_get_by_isbn, IndexDict_getitem. simpl.
    by rewrite lookup_delete_eq.
  - unfold Library_remove_book. simpl.
    by rewrite (BookCollection_remove_absent (OfIsbn i)).
  - intros lib0 b0 Hnew%BookCollection_contains_false. simpl in Hnew.
    unfold Library_remove_book. simpl.
    rewrite BookCollection_remove_after_add by done.
    unfold IndexDict_remove. simpl. rewrite lookup_insert_eq. eauto.
Qed.

(** C7. [refresh_indexes] is idempotent: a second call in a row leaves the
    library, and so the three dictionaries of the index, as the first call
    left them. The collection is untouched, and the index after the call is
    the empty index to which every book of the collection has been added in
    collection order, whatever it held before: [by_isbn] maps an isbn to the
    last book of the collection that carries it, and a bucket holds the
    books of the collection that belong to its key. *)
Theorem Library_refresh_indexes_idempotent (lib : Library) :
  Library_refresh_indexes (Library_refresh_indexes lib) = Library_refresh_indexes lib ∧
  books (Library_refresh_indexes lib) = books lib ∧
  indexes (Library_refresh_indexes lib) =
    foldl (λ acc book, IndexDict_add book acc) IndexDict_init (books lib) ∧
  (∀ k, by_isbn (indexes (Library_refresh_indexes lib)) !! k =
        last (filter (λ b, isbn b = k) (books lib))) ∧
  (∀ key b, b ∈ bucket key (by_author (indexes (Library_refresh_indexes lib))) ↔
            b ∈ books lib ∧ lower (author b) = key) ∧
  (∀ key b, b ∈ bucket key (by_year (indexes (Library_refresh_indexes lib))) ↔
            b ∈ books lib ∧ year b = key).
Proof.
  split_and!; [done..| | |].
  - intros k. apply by_isbn_rebuild.
  - intros key b. simpl. unfold IndexDict_rebuild.
    rewrite by_author_foldl_add. simpl. rewrite elem_of_bucket_empty. tauto.
  - intros key b. simpl. unfold IndexDict_rebuild.
    rewrite by_year_foldl_add. simpl. rewrite elem_of_bucket_empty. tauto.
Qed.

(** C9. [pop_random] on an empty collection raises IndexError, the
    empty-collection error, without drawing from the generator; on a library
    whose collection is empty, and so on the empty library, [remove_random]
    raises that same error and leaves collection and index as they were. *)
Theorem Library_remove_random_empty (rng : Rng) (idx : IndexDict) :
  BookCollection_pop_random rng [] = (rng, [], Raise IndexError) ∧
  Library_remove_random rng {| books := []; indexes := idx |} =
    (rng, {| books := []; indexes := idx |}, Raise IndexError) ∧
  Library_remove_random rng (Library_init []) =
    (rng, Library_init [], Raise IndexError).
Proof. done. Qed.

(** * Further properties of the catalogue *)

(** ** BookCollection: removal, insertion, random removal *)

(** X1. [remove] of an isbn the collection contains takes out the first
    entry that carries it and returns that entry: the entries before it,
    none of which has the isbn, and the entries after it keep their order. *)
Theorem BookCollection_remove_first (k : BookOrIsbn) (l : BookCollection) :
  BookCollection_contains k l = true →
  ∃ l1 b l2,
    l = l1 ++ b :: l2 ∧
    isbn b = isbn_of k ∧
    (∀ y, y ∈ l1 → isbn y ≠ isbn_of k) ∧
    BookCollection_remove k l = (l1 ++ l2, Return b).
Proof.
  intros Hin%BookCollection_contains_true. unfold BookCollection_remove.
  destruct (list_find _ l) as [[idx x]|] eqn:Hfind.
  - apply list_find_Some in Hfind as (Hx & Hisbn & Hbefore).
    exists (take idx l), x, (drop (S idx) l). split_and!.
    + by rewrite take_drop_middle.
    + done.
    + intros y (j & Hy)%list_elem_of_lookup.
      apply lookup_take_Some in Hy as [Hy Hj]. by apply (Hbefore j).
    + unfold list_pop. by rewrite Hx, delete_take_drop.
  - apply list_find_None in Hfind. rewrite Forall_forall in Hfind.
    apply elem_of_collection_ids in Hin as (b & Hb & Heq). by destruct (Hfind b).
Qed.

(** X2. [remove] raises exactly when the collection does not contain the
    isbn; the exception is then KeyError and the collection is untouched. *)
Theorem BookCollection_remove_KeyError (k : BookOrIsbn) (l : BookCollection) :
  (BookCollection_contains k l = false ↔
   BookCollection_remove k l = (l, Raise KeyError)) ∧
  (∀ l' e, BookCollection_remove k l = (l', Raise e) → e = KeyError ∧ l' = l).
Proof.
  split.
  - rewrite BookCollection_contains_false. split.
    + apply BookCollection_remove_absent.
    + by intros (_ & _ & Hk)%BookCollection_remove_Raise.
  - by intros l' e (-> & -> & _)%BookCollection_remove_Raise.
Qed.

(** X3. After [add(book)] the collection contains the isbn of the book, is
    one entry longer, and contains any other isbn exactly when it did. *)
Theorem BookCollection_contains_add (book : Book) (l : BookCollection) :
  BookCollection_contains (OfBook book) (BookCollection_add book l) = true ∧
  length (BookCollection_add book l) = S (length l) ∧
  (∀ k, isbn_of k ≠ isbn book →
        BookCollection_contains k (BookCollection_add book l)
        = BookCollection_contains k l).
Proof.
  split_and!.
  - apply BookCollection_contains_true. rewrite collection_ids_add. set_solver.
  - unfold BookCollection_add. rewrite length_app. simpl. lia.
  - intros k Hne.
    destruct (BookCollection_contains k l) eqn:Hk.
    + apply BookCollection_contains_true. rewrite collection_ids_add.
      apply BookCollection_contains_true in Hk. set_solver.
    + apply BookCollection_contains_false. rewrite collection_ids_add.
      apply BookCollection_contains_false in Hk. set_solver.
Qed.

(** X4. Adding a book whose isbn the collection does not contain and then
    removing it, by instance or by isbn, gives the collection back and
    returns the book. *)
Theorem BookCollection_add_remove (book : Book) (l : BookCollection) :
  BookCollection_contains (OfBook book) l = false →
  BookCollection_remove (OfBook book) (BookCollection_add book l) = (l, Return book) ∧
  BookCollection_remove (OfIsbn (isbn book)) (BookCollection_add book l)
    = (l, Return book).
Proof.
  intros Hnew%BookCollection_contains_false. simpl in Hnew.
  split; by apply BookCollection_remove_after_add.
Qed.

(** X5. On a collection that is not empty, when [randrange] draws an index
    below the length (as [random.Random.randrange] does), [pop_random]
    returns the entry at that index and removes just it: the collection
    before the call is a permutation of the returned entry and what is left,
    which is one entry shorter and keeps its order. *)
Theorem BookCollection_pop_random_in_range (rng : Rng) (l : BookCollection) :
  l ≠ [] →
  ((randrange rng (length l)).1 < length l)%nat →
  ∃ b,
    l !! (randrange rng (length l)).1 = Some b ∧
    BookCollection_pop_random rng l
      = ((randrange rng (length l)).2, delete (randrange rng (length l)).1 l, Return b) ∧
    l ≡ₚ b :: delete (randrange rng (length l)).1 l ∧
    S (length (delete (randrange rng (length l)).1 l)) = length l.
Proof.
  intros Hne Hlt.
  destruct (lookup_lt_is_Some_2 l _ Hlt) as [b Hb]. exists b.
  split_and!.
  - done.
  - unfold BookCollection_pop_random. destruct l as [|x l']; [done|].
    destruct (randrange rng (length (x :: l'))) as [index rng'].
    unfold list_pop. simpl in Hb |- *. by rewrite Hb.
  - destruct (delete_middle _ l b Hb) as (l1 & l2 & Hl & ->).
    rewrite Hl at 1. by rewrite Permutation_middle.
  - rewrite length_delete by eauto. lia.
Qed.

(** ** BookCollection: the algebra of [+] *)

Lemma first_unseen_fresh (seen : gset string) (other : list Book) :
  NoDup (isbn <$> first_unseen seen other) ∧
  ∀ b, b ∈ first_unseen seen other → isbn b ∉ seen.
Proof.
  revert seen. induction other as [|book rest IH]; intros seen; simpl.
  - split; [apply NoDup_nil_2|]. by intros b ?%elem_of_nil.
  - destruct (decide (isbn book ∈ seen)) as [Hin|Hout]; [apply IH|].
    destruct (IH ({[isbn book]} ∪ seen)) as [Hnd Hnew]. split.
    + rewrite fmap_cons. apply NoDup_cons. split; [|done].
      intros (b & Heq & Hb)%list_elem_of_fmap. apply (Hnew b Hb). set_solver.
    + intros b [->|Hb]%elem_of_cons; [done|].
      specialize (Hnew b Hb). set_solver.
Qed.

Lemma first_unseen_app (seen : gset string) (l1 l2 : list Book) :
  first_unseen seen (l1 ++ l2)
  = first_unseen seen l1 ++ first_unseen (seen ∪ collection_ids l1) l2.
Proof.
  revert seen. induction l1 as [|book rest IH]; intros seen; simpl.
  - unfold collection_ids. simpl. by rewrite (right_id_L ∅ (∪)).
  - unfold collection_ids in *. simpl.
    destruct (decide (isbn book ∈ seen)) as [Hin|Hout].
    + rewrite IH. do 2 f_equal. set_solver.
    + simpl. rewrite IH. do 3 f_equal. set_solver.
Qed.

Lemma first_unseen_first_unseen (seen seen' : gset string) (other : list Book) :
  seen ⊆ seen' →
  first_unseen seen' (first_unseen seen other) = first_unseen seen' other.
Proof.
  revert seen seen'. induction other as [|book rest IH]; intros seen seen' Hsub; simpl.
  - done.
  - destruct (decide (isbn book ∈ seen)) as [Hin|Hout].
    + rewrite decide_True by set_solver. by apply IH.
    + simpl. destruct (decide (isbn book ∈ seen')) as [Hin'|Hout'].
      * apply IH. set_solver.
      * f_equal. apply IH. set_solver.
Qed.

Lemma first_unseen_nil (seen : gset string) (other : list Book) :
  first_unseen seen other = [] ↔ collection_ids other ⊆ seen.
Proof.
  split.
  - intros Hnil. pose proof (first_unseen_ids seen other) as Hids.
    rewrite Hnil in Hids. unfold collection_ids in *. simpl in Hids. set_solver.
  - revert seen. induction other as [|book rest IH]; intros seen Hsub; simpl; [done|].
    unfold collection_ids in *. simpl in Hsub.
    rewrite decide_True by set_solver. apply IH. set_solver.
Qed.

(** X6. [A + B] has pairwise different isbns whenever [A] has: the books
    taken from [B] repeat neither an isbn of [A] nor one another's. *)
Theorem BookCollection_concat_NoDup (A B : BookCollection) :
  NoDup (isbn <$> A) → NoDup (isbn <$> BookCollection_concat A B).
Proof.
  intros HA. rewrite BookCollection_concat_first_unseen, fmap_app.
  destruct (first_unseen_fresh (collection_ids A) B) as [Hnd Hnew].
  apply NoDup_app. split_and!; [done| |done].
  intros i Hi (b & -> & Hb)%list_elem_of_fmap.
  apply (Hnew b Hb). unfold collection_ids. by apply elem_of_list_to_set.
Qed.

(** X7. [+] is associative: [(A + B) + C] and [A + (B + C)] are the same
    collection, entry for entry. *)
Theorem BookCollection_concat_assoc (A B C : BookCollection) :
  BookCollection_concat (BookCollection_concat A B) C
  = BookCollection_concat A (BookCollection_concat B C).
Proof.
  rewrite !BookCollection_concat_first_unseen, first_unseen_app.
  rewrite (first_unseen_first_unseen (collection_ids B)) by set_solver.
  rewrite <- app_assoc. do 2 f_equal.
  unfold collection_ids. rewrite fmap_app, list_to_set_app_L.
  pose proof (first_unseen_ids (collection_ids A) B) as Hids.
  unfold collection_ids in Hids. by rewrite Hids.
Qed.

(** X8. [A + B] is [A] itself exactly when every isbn of [B] is already in
    [A]; in particular [A + A] and [A + []] are [A]. *)
Theorem BookCollection_concat_absorb (A B : BookCollection) :
  (BookCollection_concat A B = A ↔ collection_ids B ⊆ collection_ids A) ∧
  BookCollection_concat A A = A ∧
  BookCollection_concat A [] = A.
Proof.
  assert (BookCollection_concat A B = A ↔ collection_ids B ⊆ collection_ids A) as Hiff.
  { rewrite BookCollection_concat_first_unseen, <- first_unseen_nil. split.
    - intros Heq. apply (app_inv_head A). by rewrite app_nil_r.
    - intros ->. by rewrite app_nil_r. }
  split_and!; [done| |done].
  rewrite BookCollection_concat_first_unseen.
  by rewrite (proj2 (first_unseen_nil (collection_ids A) A)), app_nil_r.
Qed.

(** ** IndexDict: removal, round trips, size *)

Lemma bucket_discard_add {K : Type} {eqK : EqDecision K} {cntK : Countable K}
    (key : K) (book : Book) (d : gmap K (gset Book)) :
  no_empty_bucket d → book ∉ bucket key d →
  bucket_discard key book (bucket_add key book d) = d.
Proof.
  intros Hne Hnotin. unfold bucket_discard, bucket_add, bucket in *.
  rewrite lookup_insert_eq.
  assert ((default ∅ (d !! key) ∪ {[book]}) ∖ {[book]} = default ∅ (d !! key)) as ->
    by set_solver.
  destruct (d !! key) as [s|] eqn:Hs; simpl.
  - rewrite decide_False by by apply (Hne key).
    by rewrite insert_insert_eq, insert_id.
  - rewrite decide_True by done. by apply delete_insert_id.
Qed.

(** X9. On a reachable index, [remove] of an isbn that [by_isbn] holds
    returns the stored book, deletes that key and no other from [by_isbn],
    and takes that book, and nothing else, out of every bucket. *)
Theorem IndexDict_remove_stored (idx : IndexDict) (k : BookOrIsbn) (b : Book) :
  index_reachable idx →
  by_isbn idx !! isbn_of k = Some b →
  let idx' := (IndexDict_remove k idx).1 in
  (IndexDict_remove k idx).2 = Return b ∧
  by_isbn idx' = delete (isbn_of k) (by_isbn idx) ∧
  IndexDict_contains k idx' = false ∧
  (∀ key b', b' ∈ bucket key (by_author idx') ↔
             b' ∈ bucket key (by_author idx) ∧ b' ≠ b) ∧
  (∀ key b', b' ∈ bucket key (by_year idx') ↔
             b' ∈ bucket key (by_year idx) ∧ b' ≠ b).
Proof.
  intros Hwf%index_reachable_wf Hb idx'. subst idx'.
  unfold IndexDict_remove, IndexDict_contains. rewrite Hb. simpl.
  split_and!; [done..| | |].
  - rewrite lookup_delete_eq. apply bool_decide_eq_false. by intros [? ?].
  - intros key b'. rewrite elem_of_bucket_discard. split.
    + intros [Hb' Hnot]. split; [done|]. intros ->. apply Hnot.
      split; [|done]. symmetry. by apply (wf_author_key _ Hwf).
    + intros [Hb' Hne]. split; [done|]. by intros [_ ?].
  - intros key b'. rewrite elem_of_bucket_discard. split.
    + intros [Hb' Hnot]. split; [done|]. intros ->. apply Hnot.
      split; [|done]. symmetry. by apply (wf_year_key _ Hwf).
    + intros [Hb' Hne]. split; [done|]. by intros [_ ?].
Qed.

(** X10. On an index to which no isbn was ever added twice, [add] of a book
    whose isbn [by_isbn] does not hold followed by [remove] of that book
    returns the book and restores the three dictionaries exactly. *)
Theorem IndexDict_add_remove (idx : IndexDict) (book : Book) :
  index_reachable_fresh idx →
  by_isbn idx !! isbn book = None →
  IndexDict_remove (OfBook book) (IndexDict_add book idx) = (idx, Return book).
Proof.
  intros [Hwf Hta Hty]%index_reachable_fresh_tight Hfresh.
  unfold IndexDict_remove. simpl. rewrite lookup_insert_eq.
  destruct idx as [m da dy]. simpl in *. do 2 f_equal.
  - by apply delete_insert_id.
  - apply bucket_discard_add; [apply (wf_author_nonempty _ Hwf)|].
    intros Hin%Hta. unfold in_by_isbn in Hin. simpl in Hin. congruence.
  - apply bucket_discard_add; [apply (wf_year_nonempty _ Hwf)|].
    intros Hin%Hty. unfold in_by_isbn in Hin. simpl in Hin. congruence.
Qed.

(** X11. [len] of an index counts the isbns of [by_isbn]: [add] of a new
    isbn raises it by one, [add] over an isbn already held leaves it as it
    is, and a [remove] that succeeds lowers it by one. *)
Theorem IndexDict_len_add_remove (idx : IndexDict) (book : Book) (k : BookOrIsbn) :
  (IndexDict_contains (OfBook book) idx = false →
   IndexDict_len (IndexDict_add book idx) = S (IndexDict_len idx)) ∧
  (IndexDict_contains (OfBook book) idx = true →
   IndexDict_len (IndexDict_add book idx) = IndexDict_len idx) ∧
  (IndexDict_contains k idx = true →
   S (IndexDict_len (IndexDict_remove k idx).1) = IndexDict_len idx) ∧
  (IndexDict_contains k idx = false →
   IndexDict_len (IndexDict_remove k idx).1 = IndexDict_len idx).
Proof.
  unfold IndexDict_contains, IndexDict_len, IndexDict_remove. simpl.
  split_and!.
  - rewrite bool_decide_eq_false, <- eq_None_not_Some.
    apply map_size_insert_None.
  - rewrite bool_decide_eq_true. apply map_size_insert_Some.
  - rewrite bool_decide_eq_true. intros [b Hb]. rewrite Hb. simpl.
    rewrite map_size_delete_Some by eauto.
    assert (size (by_isbn idx) ≠ 0%nat); [|lia].
    intros Hzero%map_size_empty_iff. rewrite Hzero in Hb. by rewrite lookup_empty in Hb.
  - rewrite bool_decide_eq_false, <- eq_None_not_Some. by intros ->.
Qed.

(** X12. [index[isbn]] after [add(book)] is [book] for the isbn of the
    book and what it was for every other isbn; it returns a book exactly
    when [isbn in index] is true and raises KeyError exactly when it is
    false. *)
Theorem IndexDict_getitem_add (idx : IndexDict) (book : Book) :
  (∀ i, IndexDict_getitem i (IndexDict_add book idx)
        = if decide (i = isbn book) then Return book else IndexDict_getitem i idx) ∧
  (∀ k, IndexDict_contains k idx = true ↔
        ∃ b, IndexDict_getitem (isbn_of k) idx = Return b) ∧
  (∀ k, IndexDict_contains k idx = false ↔
        IndexDict_getitem (isbn_of k) idx = Raise KeyError).
Proof.
  unfold IndexDict_getitem, IndexDict_contains. split_and!.
  - intros i. simpl. destruct (decide (i = isbn book)) as [->|Hne].
    + by rewrite lookup_insert_eq.
    + by rewrite lookup_insert_ne.
  - intros k. rewrite bool_decide_eq_true.
    destruct (by_isbn idx !! isbn_of k) as [b|]; naive_solver.
  - intros k. rewrite bool_decide_eq_false.
    destruct (by_isbn idx !! isbn_of k) as [b|]; [|naive_solver].
    split; [|done]. intros Hnot. destruct Hnot. eauto.
Qed.

(** ** Library: the index against a scan of the collection *)

Lemma IndexDict_contains_false_None (k : BookOrIsbn) (idx : IndexDict) :
  IndexDict_contains k idx = false ↔ by_isbn idx !! isbn_of k = None.
Proof.
  unfold IndexDict_contains. by rewrite bool_decide_eq_false, eq_None_not_Some.
Qed.

Lemma library_reachable_fresh_tight (lib : Library) :
  library_reachable_fresh lib → index_tight (indexes lib).
Proof.
  induction 1 as [|o lib Hreach IH Hfresh]; [apply index_tight_init|].
  pose proof (library_reachable_fresh_inv lib Hreach) as Hinv.
  destruct o as [book|i|rng|]; simpl.
  - apply index_tight_add; [|done]. by apply (IndexDict_contains_false_None (OfBook book)).
  - unfold Library_remove_book.
    destruct (BookCollection_remove (OfIsbn i) (books lib)) as [l' [b|e]]; [|done].
    pose proof (index_tight_remove (OfIsbn i) (indexes lib) IH) as Ht.
    by destruct (IndexDict_remove (OfIsbn i) (indexes lib)) as [idx' [b'|e]].
  - unfold Library_remove_random.
    destruct (BookCollection_pop_random rng (books lib)) as [[rng' l'] [b|e]]; [|done].
    pose proof (index_tight_remove (OfBook b) (indexes lib) IH) as Ht.
    by destruct (IndexDict_remove (OfBook b) (indexes lib)) as [idx' [b'|e]].
  - apply index_tight_rebuild, (inv_NoDup _ Hinv).
Qed.

Lemma Library_init_snoc (l : list Book) (book : Book) :
  Library_init (l ++ [book]) = Library_add_book book (Library_init l).
Proof.
  unfold Library_init, Library_add_book, IndexDict_rebuild, BookCollection_add. simpl.
  by rewrite foldl_app.
Qed.

(** X13. [Library(books)] is the empty library to which the books were
    added one by one with [add_book], in order. *)
Theorem Library_init_add_book (l : list Book) :
  Library_init l = foldl (λ lib book, Library_add_book book lib) (Library_init []) l.
Proof.
  induction l as [|book l IH] using rev_ind; [done|].
  by rewrite foldl_app, Library_init_snoc, IH.
Qed.

(** X14. [Library(books)] built from books with pairwise different isbns
    is a library to which no isbn was added twice: collection and index hold
    the same isbns, and [get_by_isbn] returns each of the books under its
    isbn. *)
Theorem Library_init_NoDup (l : list Book) :
  NoDup (isbn <$> l) →
  library_reachable_fresh (Library_init l) ∧
  library_synced (Library_init l) ∧
  (∀ b, b ∈ l → Library_get_by_isbn (isbn b) (Library_init l) = Return b).
Proof.
  intros Hnd.
  assert (library_reachable_fresh (Library_init l)) as Hreach.
  { induction l as [|book l IH] using rev_ind; [apply library_reachable_fresh_init|].
    rewrite fmap_app in Hnd. apply NoDup_app in Hnd as (Hnd & Hdisj & _).
    rewrite Library_init_snoc.
    apply (library_reachable_fresh_step (AddBook book)); [by apply IH|].
    simpl. apply (IndexDict_contains_false_None (OfBook book)). simpl.
    rewrite by_isbn_rebuild, filter_isbn_nil; [done|].
    intros Hin. apply (Hdisj _ Hin). simpl. by left. }
  pose proof (library_reachable_fresh_inv _ Hreach) as Hinv.
  split_and!; [done|by apply library_inv_synced|].
  intros b Hb. unfold Library_get_by_isbn, IndexDict_getitem.
  by rewrite (proj2 (inv_by_isbn _ Hinv (isbn b) b)).
Qed.

(** X15. In a library to which no isbn was added twice, [get_by_isbn]
    answers as a scan of the collection would: it returns a book exactly
    when the collection holds that book under the isbn, and raises KeyError
    exactly when the collection does not contain the isbn. *)
Theorem Library_get_by_isbn_scan (lib : Library) (i : string) :
  library_reachable_fresh lib →
  (∀ b, Library_get_by_isbn i lib = Return b ↔ b ∈ books lib ∧ isbn b = i) ∧
  (Library_get_by_isbn i lib = Raise KeyError ↔
   BookCollection_contains (OfIsbn i) (books lib) = false).
Proof.
  intros Hinv%library_reachable_fresh_inv.
  unfold Library_get_by_isbn, IndexDict_getitem. split.
  - intros b. rewrite <- (inv_by_isbn _ Hinv).
    destruct (by_isbn (indexes lib) !! i); naive_solver.
  - rewrite BookCollection_contains_false, elem_of_collection_ids. simpl.
    destruct (by_isbn (indexes lib) !! i) as [b|] eqn:Hb; split; try done.
    + intros Hnone. destruct Hnone. exists b. by apply (inv_by_isbn _ Hinv).
    + intros _ (b & Hb'). apply (inv_by_isbn _ Hinv) in Hb'. congruence.
Qed.

(** X16. In a library to which no isbn was added twice, [find_by_author]
    and [find_by_year] return, without repetition, exactly the books of the
    collection whose author matches up to case, respectively whose year is
    the one asked for. *)
Theorem Library_find_scan (lib : Library) (a : string) (y : Z) :
  library_reachable_fresh lib →
  (∀ b, b ∈ Library_find_by_author a lib ↔
        b ∈ books lib ∧ lower (author b) = lower a) ∧
  (∀ b, b ∈ Library_find_by_year y lib ↔ b ∈ books lib ∧ year b = y) ∧
  NoDup (Library_find_by_author a lib) ∧
  NoDup (Library_find_by_year y lib).
Proof.
  intros Hreach.
  pose proof (library_reachable_fresh_inv _ Hreach) as Hinv.
  destruct (library_reachable_fresh_tight _ Hreach) as [Hwf Hta Hty].
  unfold Library_find_by_author, Library_find_by_year,
    IndexDict_get_by_author, IndexDict_get_by_year.
  split_and!; [| |apply NoDup_elements..].
  - intros b. rewrite elem_of_elements. split.
    + intros Hb. split; [|by apply (wf_author_key _ Hwf)].
      apply Hta in Hb. by apply (inv_by_isbn _ Hinv) in Hb as [? _].
    + intros [Hb <-]. apply (wf_forward _ Hwf (isbn b)).
      by apply (inv_by_isbn _ Hinv).
  - intros b. rewrite elem_of_elements. split.
    + intros Hb. split; [|by apply (wf_year_key _ Hwf)].
      apply Hty in Hb. by apply (inv_by_isbn _ Hinv) in Hb as [? _].
    + intros [Hb <-]. apply (wf_forward _ Hwf (isbn b)).
      by apply (inv_by_isbn _ Hinv).
Qed.

(** X17. In a library to which no isbn was added twice, the index holds as
    many isbns as the collection holds books: [len(library.indexes)] is
    [len(library.books)]. *)
Theorem Library_len_indexes (lib : Library) :
  library_reachable_fresh lib →
  IndexDict_len (indexes lib) = length (books lib).
Proof.
  intros Hinv%library_reachable_fresh_inv.
  pose proof (library_inv_synced _ Hinv) as Hsync.
  unfold library_synced, index_ids, collection_ids in Hsync.
  unfold IndexDict_len.
  rewrite <- (size_dom (D:=gset string)), <- Hsync.
  rewrite size_list_to_set by apply (inv_NoDup _ Hinv).
  apply length_fmap.
Qed.

(** X18. [find_by_genre] scans the collection and never reads the index:
    on any library it returns the books whose genre matches up to case, in
    collection order; the casing of the query does not matter; and
    [add_book] appends the new book to the result when its genre matches and
    leaves the result as it is otherwise. *)
Theorem Library_find_by_genre_scan (lib : Library) (g : string) :
  (∀ b, b ∈ Library_find_by_genre g lib ↔
        b ∈ books lib ∧ lower (genre b) = lower g) ∧
  sublist (Library_find_by_genre g lib) (books lib) ∧
  (∀ idx, Library_find_by_genre g {| books := books lib; indexes := idx |}
          = Library_find_by_genre g lib) ∧
  (∀ g', lower g' = lower g →
         Library_find_by_genre g' lib = Library_find_by_genre g lib) ∧
  (∀ book, Library_find_by_genre g (Library_add_book book lib)
           = Library_find_by_genre g lib ++
             (if decide (lower (genre book) = lower g) then [book] else [])).
Proof.
  unfold Library_find_by_genre. split_and!.
  - intros b. rewrite list_elem_of_filter. tauto.
  - apply sublist_filter.
  - done.
  - intros g' Heq. apply filter_ext_elem_of. intros b _. by rewrite Heq.
  - intros book. simpl. unfold BookCollection_add.
    rewrite filter_app, filter_cons, filter_nil.
    by destruct (decide (lower (genre book) = lower g)).
Qed.

(** ** Library: removal *)

Lemma Library_remove_book_inv (lib : Library) (i : string) :
  library_inv lib →
  BookCollection_contains (OfIsbn i) (books lib) = true →
  ∃ n b,
    books lib !! n = Some b ∧ isbn b = i ∧
    Library_remove_book i lib
    = ({| books := delete n (books lib);
          indexes := (IndexDict_remove (OfIsbn i) (indexes lib)).1 |}, Return b).
Proof.
  intros Hinv Hin%BookCollection_contains_true. unfold Library_remove_book.
  destruct (BookCollection_remove (OfIsbn i) (books lib)) as [l' [b|e]] eqn:Hrem.
  - apply BookCollection_remove_Return in Hrem as (n & Hb & Heq & ->).
    exists n, b. split_and!; [done..|].
    destruct (library_inv_pop (OfIsbn i) n b lib Hinv Hb) as [Hret _]; [done|].
    destruct (IndexDict_remove (OfIsbn i) (indexes lib)) as [idx' [b'|e]];
      simpl in *; congruence.
  - by apply BookCollection_remove_Raise in Hrem as (_ & _ & Hnot).
Qed.

Lemma Library_remove_random_inv (rng : Rng) (lib : Library) (b : Book) :
  library_inv lib →
  books lib !! (randrange rng (length (books lib))).1 = Some b →
  Library_remove_random rng lib
  = ((randrange rng (length (books lib))).2,
     {| books := delete (randrange rng (length (books lib))).1 (books lib);
        indexes := (IndexDict_remove (OfBook b) (indexes lib)).1 |},
     Return b).
Proof.
  intros Hinv Hb. unfold Library_remove_random, BookCollection_pop_random.
  destruct (books lib) as [|x l] eqn:Hbooks; [by rewrite lookup_nil in Hb|].
  rewrite <- Hbooks in *.
  destruct (library_inv_pop (OfBook b) _ b lib Hinv Hb) as [Hret _]; [done|].
  destruct (randrange rng (length (books lib))) as [index rng']. simpl in *.
  unfold list_pop. rewrite Hb.
  destruct (IndexDict_remove (OfBook b) (indexes lib)) as [idx' [b'|e]];
    simpl in *; congruence.
Qed.

(** X19. In a library to which no isbn was added twice, [remove_book] is
    all or nothing. When the collection contains the isbn it returns the
    book that [get_by_isbn] gave for it, the collection is one book shorter,
    and the library is again one to which no isbn was added twice; when the
    collection does not contain the isbn it raises KeyError and the library
    is as it was. *)
Theorem Library_remove_book_atomic (lib : Library) (i : string) :
  library_reachable_fresh lib →
  (BookCollection_contains (OfIsbn i) (books lib) = true →
   ∃ b lib',
     Library_remove_book i lib = (lib', Return b) ∧
     Library_get_by_isbn i lib = Return b ∧
     b ∈ books lib ∧
     S (length (books lib')) = length (books lib) ∧
     library_reachable_fresh lib') ∧
  (BookCollection_contains (OfIsbn i) (books lib) = false →
   Library_remove_book i lib = (lib, Raise KeyError)).
Proof.
  intros Hreach. pose proof (library_reachable_fresh_inv _ Hreach) as Hinv. split.
  - intros Hin.
    destruct (Library_remove_book_inv lib i Hinv Hin) as (n & b & Hb & Heq & Hrem).
    assert (b ∈ books lib) as Hmem by (apply list_elem_of_lookup; eauto).
    eexists b, _. split_and!; [exact Hrem| |done| |].
    + unfold Library_get_by_isbn, IndexDict_getitem.
      by rewrite (proj2 (inv_by_isbn _ Hinv i b)).
    + simpl. rewrite length_delete by eauto.
      apply lookup_lt_Some in Hb. lia.
    + pose proof (library_reachable_fresh_step (RemoveBook i) lib Hreach I) as Hstep.
      simpl in Hstep. by rewrite Hrem in Hstep.
  - intros Hout%BookCollection_contains_false. unfold Library_remove_book.
    rewrite (BookCollection_remove_absent (OfIsbn i)) by done. by destruct lib.
Qed.

(** X20. When the collection contains an isbn that the index does not,
    [remove_book] raises KeyError after it has shortened the collection: the
    collection loses its first entry with the isbn, the entries before and
    after it keep their order, and the index is as it was. *)
Theorem Library_remove_book_partial (lib : Library) (i : string) :
  BookCollection_contains (OfIsbn i) (books lib) = true →
  IndexDict_contains (OfIsbn i) (indexes lib) = false →
  ∃ l1 b l2,
    books lib = l1 ++ b :: l2 ∧
    isbn b = i ∧
    (∀ y, y ∈ l1 → isbn y ≠ i) ∧
    Library_remove_book i lib
    = ({| books := l1 ++ l2; indexes := indexes lib |}, Raise KeyError) ∧
    S (length (l1 ++ l2)) = length (books lib) ∧
    l1 ++ l2 ≠ books lib.
Proof.
  intros Hin%BookCollection_contains_true Hout%IndexDict_contains_false_None.
  unfold Library_remove_book, BookCollection_remove. simpl in *.
  destruct (list_find (λ candidate, isbn candidate = i) (books lib))
    as [[n x]|] eqn:Hfind.
  - apply list_find_Some in Hfind as (Hx & Hisbn & Hbefore).
    unfold list_pop. rewrite Hx. unfold IndexDict_remove. simpl. rewrite Hout.
    assert (books lib = take n (books lib) ++ x :: drop (S n) (books lib)) as Hsplit
      by by rewrite take_drop_middle.
    assert (S (length (take n (books lib) ++ drop (S n) (books lib)))
            = length (books lib)) as Hlen.
    { rewrite Hsplit at 3. rewrite !length_app. simpl. lia. }
    exists (take n (books lib)), x, (drop (S n) (books lib)).
    split_and!; [done|done| |by rewrite delete_take_drop|done|].
    + intros y (j & Hy)%list_elem_of_lookup.
      apply lookup_take_Some in Hy as [Hy Hj]. by apply (Hbefore j).
    + intros Hsame. rewrite Hsame in Hlen. lia.
  - apply list_find_None in Hfind. rewrite Forall_forall in Hfind.
    apply elem_of_collection_ids in Hin as (b & Hb & Heq). by destruct (Hfind b).
Qed.

(** X21. In a library to which no isbn was added twice and whose collection
    is not empty, when [randrange] draws an index below the length,
    [remove_random] returns the book at that index, takes it out of the
    collection and out of the index ([get_by_isbn] of its isbn then raises
    KeyError), and leaves a library to which no isbn was added twice. *)
Theorem Library_remove_random_fresh (rng : Rng) (lib : Library) :
  library_reachable_fresh lib →
  ((randrange rng (length (books lib))).1 < length (books lib))%nat →
  ∃ b lib',
    Library_remove_random rng lib
      = ((randrange rng (length (books lib))).2, lib', Return b) ∧
    books lib !! (randrange rng (length (books lib))).1 = Some b ∧
    books lib' = delete (randrange rng (length (books lib))).1 (books lib) ∧
    Library_get_by_isbn (isbn b) lib' = Raise KeyError ∧
    library_reachable_fresh lib'.
Proof.
  intros Hreach Hlt. pose proof (library_reachable_fresh_inv _ Hreach) as Hinv.
  destruct (lookup_lt_is_Some_2 _ _ Hlt) as [b Hb].
  pose proof (Library_remove_random_inv rng lib b Hinv Hb) as Hrem.
  eexists b, _. split_and!; [exact Hrem|done|done| |].
  - assert (by_isbn (indexes lib) !! isbn b = Some b) as Hstored.
    { apply (inv_by_isbn _ Hinv). split; [|done]. apply list_elem_of_lookup. eauto. }
    unfold Library_get_by_isbn, IndexDict_getitem, IndexDict_remove. simpl.
    rewrite Hstored. simpl. by rewrite lookup_delete_eq.
  - pose proof (library_reachable_fresh_step (RemoveRandom rng) lib Hreach I) as Hstep.
    simpl in Hstep. by rewrite Hrem in Hstep.
Qed.

(** ** The simulation events that remove and re-index *)

(** [Book.short] *)
Definition Book_short (b : Book) : string :=
  title b +:+ " (" +:+ pretty (year b) +:+ ")".

(** [remove_book_event]. The function returns nothing and prints one line:
    the result carries the line printed, or the exception that escapes. *)
Definition remove_book_event (library : Library) (rng : Rng)
    : Rng * Library * result string :=
  if decide (length (books library) = 0%nat)
  then (rng, library, Return "[удаление] Библиотека пуста, нечего удалять")
  else
    match Library_remove_random rng library with
    | (rng', library', Return removed) =>
        (rng', library',
         Return ("[удаление] Удалена " +:+ Book_short removed
                 +:+ " [" +:+ isbn removed +:+ "]"))
    | (rng', library', Raise e) => (rng', library', Raise e)
    end.

(** [refresh_index_event], with the line it prints. *)
Definition refresh_index_event (library : Library) : Library * string :=
  let library' := Library_refresh_indexes library in
  (library',
   "[переиндексация] Перестроены индексы для "
   +:+ pretty (IndexDict_len (indexes library')) +:+ " книг").

(** X22. On a library to which no isbn was added twice, with [randrange]
    drawing below the length, [remove_book_event] never raises. On an empty
    collection it prints its line and touches neither the library nor the
    generator; otherwise it prints a line, the collection is exactly one book
    shorter, and the library still has the same isbns in collection and
    index. *)
Theorem remove_book_event_safe (lib : Library) (rng : Rng) :
  library_reachable_fresh lib →
  (books lib ≠ [] →
   ((randrange rng (length (books lib))).1 < length (books lib))%nat) →
  ∃ rng' lib' line,
    remove_book_event lib rng = (rng', lib', Return line) ∧
    library_reachable_fresh lib' ∧
    library_synced lib' ∧
    (books lib = [] → rng' = rng ∧ lib' = lib) ∧
    (books lib ≠ [] → S (length (books lib')) = length (books lib)).
Proof.
  intros Hreach Hdraw. unfold remove_book_event.
  pose proof (library_reachable_fresh_inv _ Hreach) as Hinv.
  destruct (decide (length (books lib) = 0%nat)) as [Hzero|Hpos].
  - apply length_zero_iff_nil in Hzero.
    eexists _, _, _. split_and!; [done|done|by apply library_inv_synced|done|done].
  - assert (books lib ≠ []) as Hne by (by intros ?%length_zero_iff_nil).
    specialize (Hdraw Hne).
    destruct (lookup_lt_is_Some_2 _ _ Hdraw) as [b Hb].
    rewrite (Library_remove_random_inv rng lib b Hinv Hb).
    pose proof (library_reachable_fresh_step (RemoveRandom rng) lib Hreach I) as Hstep.
    simpl in Hstep. rewrite (Library_remove_random_inv rng lib b Hinv Hb) in Hstep.
    simpl in Hstep.
    eexists _, _, _. split_and!; [done|exact Hstep| |done|].
    + by apply library_inv_synced, library_reachable_fresh_inv.
    + intros _. simpl. rewrite length_delete by eauto. lia.
Qed.

(** X23. [refresh_index_event] reports the number of different isbns in
    the collection, which is the number of books only when no two books
    share an isbn. *)
Theorem refresh_index_event_count (lib : Library) :
  (refresh_index_event lib).1 = Library_refresh_indexes lib ∧
  (refresh_index_event lib).2
    = "[переиндексация] Перестроены индексы для "
      +:+ pretty (size (collection_ids (books lib))) +:+ " книг" ∧
  (size (collection_ids (books lib)) ≤ length (books lib))%nat ∧
  (NoDup (isbn <$> books lib) ↔
   size (collection_ids (books lib)) = length (books lib)).
Proof.
  assert (IndexDict_len (indexes (Library_refresh_indexes lib))
          = size (collection_ids (books lib))) as Hlen.
  { pose proof (library_synced_refresh lib) as Hsync.
    unfold library_synced, index_ids in Hsync. simpl in Hsync.
    unfold IndexDict_len. simpl.
    by rewrite <- (size_dom (D:=gset string)), <- Hsync. }
  assert (∀ l : list string, (size (list_to_set (C:=gset string) l) ≤ length l)%nat
            ∧ (size (list_to_set (C:=gset string) l) = length l → NoDup l)) as Hsize.
  { induction l as [|x l [IHle IHnd]].
    - rewrite list_to_set_nil, size_empty. split; [done|]. intros _. apply NoDup_nil_2.
    - rewrite list_to_set_cons. cbn [length].
      destruct (decide (x ∈ l)) as [Hin|Hout].
      + assert ({[x]} ∪ list_to_set l = list_to_set (C:=gset string) l) as ->
          by set_solver.
        split; lia.
      + rewrite size_union by set_solver. rewrite size_singleton.
        split; [lia|]. intros Heq. apply NoDup_cons. split; [done|].
        apply IHnd. lia. }
  unfold refresh_index_event. simpl. split_and!.
  - done.
  - by rewrite <- Hlen.
  - unfold collection_ids. rewrite <- (length_fmap isbn). apply Hsize.
  - unfold collection_ids. rewrite <- (length_fmap isbn (books lib)). split.
    + apply size_list_to_set.
    + apply Hsize.
Qed.

(** ** Book: keyword search *)

(** [needle in haystack] on Python strings: [needle] occurs in [haystack]
    as a contiguous run of characters. *)
Fixpoint is_substring (needle haystack : string) : bool :=
  String.prefix needle haystack ||
  match haystack with
  | EmptyString => false
  | String _ rest => is_substring needle rest
  end.

(** [Book.__contains__] *)
Definition Book_contains (keyword : string) (b : Book) : bool :=
  let normalized := lower keyword in
  is_substring normalized (lower (title b)) ||
  is_substring normalized (lower (author b)).

Lemma string_app_nil_l (t : string) : "" +:+ t = t.
Proof. reflexivity. Qed.

Lemma string_app_cons (c : ascii) (s t : string) :
  String c s +:+ t = String c (s +:+ t).
Proof. reflexivity. Qed.

Lemma string_app_nil_r (s : string) : s +:+ "" = s.
Proof.
  induction s as [|c s IH]; [done|]. by rewrite string_app_cons, IH.
Qed.

Lemma String_prefix_true (s t : string) :
  String.prefix s t = true ↔ ∃ post, t = s +:+ post.
Proof.
  revert s. induction t as [|d t IH]; intros [|c s]; cbn [String.prefix].
  - split; [|done]. intros _. by exists EmptyString.
  - split; [done|]. intros [post Heq]. by rewrite string_app_cons in Heq.
  - split; [|done]. intros _. by exists (String d t).
  - destruct (Ascii.ascii_dec c d) as [->|Hne].
    + rewrite IH. split; intros [post Heq]; exists post.
      * by rewrite string_app_cons, Heq.
      * rewrite string_app_cons in Heq. congruence.
    + split; [done|]. intros [post Heq].
      rewrite string_app_cons in Heq. congruence.
Qed.

Lemma is_substring_true (s t : string) :
  is_substring s t = true ↔ ∃ pre post, t = pre +:+ s +:+ post.
Proof.
  induction t as [|d t IH]; cbn [is_substring].
  - rewrite orb_false_r, String_prefix_true. split.
    + intros [post ->]. by exists EmptyString, post.
    + intros ([|c pre] & post & Heq).
      * by exists post.
      * by rewrite string_app_cons in Heq.
  - rewrite orb_true_iff, String_prefix_true, IH. split.
    + intros [[post ->]|(pre & post & ->)].
      * by exists EmptyString, post.
      * by exists (String d pre), post.
    + intros ([|c pre] & post & Heq).
      * left. by exists post.
      * right. exists pre, post. rewrite string_app_cons in Heq. congruence.
Qed.

Lemma is_substring_refl (s : string) : is_substring s s = true.
Proof.
  apply is_substring_true. exists EmptyString, EmptyString.
  by rewrite string_app_nil_l, string_app_nil_r.
Qed.

(** X24. [keyword in book] holds exactly when the lowercased keyword occurs
    in the lowercased title or in the lowercased author. So a book is found
    by its title and by its author in any casing, and two keywords that
    differ only in case find the same books. *)
Theorem Book_contains_spec (keyword : string) (b : Book) :
  (Book_contains keyword b = true ↔
   (∃ pre post, lower (title b) = pre +:+ lower keyword +:+ post) ∨
   (∃ pre post, lower (author b) = pre +:+ lower keyword +:+ post)) ∧
  (lower keyword = lower (title b) → Book_contains keyword b = true) ∧
  (lower keyword = lower (author b) → Book_contains keyword b = true) ∧
  (∀ keyword', lower keyword' = lower keyword →
               Book_contains keyword' b = Book_contains keyword b).
Proof.
  unfold Book_contains. simpl. split_and!.
  - by rewrite orb_true_iff, !is_substring_true.
  - intros ->. by rewrite is_substring_refl.
  - intros ->. by rewrite is_substring_refl, orb_true_r.
  - by intros keyword' ->.
Qed.

(** ** Library: what holds even when an isbn is added twice *)

Lemma elem_of_delete_ne {A : Type} (n : nat) (l : list A) (x y : A) :
  l !! n = Some x → y ∈ l → y ≠ x → y ∈ delete n l.
Proof.
  intros (l1 & l2 & -> & ->)%delete_middle.
  rewrite !elem_of_app, elem_of_cons. naive_solver.
Qed.

(** Every entry of [by_isbn] is a book of the collection, stored under its
    own isbn. *)
Definition index_within_collection (lib : Library) : Prop :=
  ∀ k b, by_isbn (indexes lib) !! k = Some b → b ∈ books lib ∧ isbn b = k.

Lemma index_within_collection_pop (k : BookOrIsbn) (n : nat) (x : Book) (lib : Library) :
  index_within_collection lib →
  books lib !! n = Some x → isbn x = isbn_of k →
  index_within_collection
    {| books := delete n (books lib);
       indexes := (IndexDict_remove k (indexes lib)).1 |}.
Proof.
  intros Hin Hx Hk k' b. unfold IndexDict_remove. simpl.
  assert (by_isbn (indexes lib) !! k' = Some b → k' ≠ isbn_of k →
          b ∈ delete n (books lib) ∧ isbn b = k') as Hkeep.
  { intros [Hb Heq]%Hin Hne. split; [|done].
    apply (elem_of_delete_ne n _ x); [done..|]. intros ->. congruence. }
  destruct (by_isbn (indexes lib) !! isbn_of k) as [stored|] eqn:Hstored; simpl.
  - intros [Hne Hb]%lookup_delete_Some. by apply Hkeep.
  - intros Hb. apply Hkeep; [done|]. intros ->. congruence.
Qed.

Lemma index_within_collection_step (o : library_op) (lib : Library) :
  index_within_collection lib → index_within_collection (library_step o lib).
Proof.
  intros Hin. destruct o as [book|i|rng|]; simpl.
  - intros k b. simpl. unfold BookCollection_add. rewrite elem_of_app.
    intros [[<- <-]|[Hne [Hb Heq]%Hin]]%lookup_insert_Some.
    + split; [|done]. right. by apply list_elem_of_singleton.
    + split; [by left|done].
  - unfold Library_remove_book.
    destruct (BookCollection_remove (OfIsbn i) (books lib)) as [l' [x|e]] eqn:Hrem.
    + apply BookCollection_remove_Return in Hrem as (n & Hx & Heq & ->).
      pose proof (index_within_collection_pop (OfIsbn i) n x lib Hin Hx Heq) as Hpop.
      by destruct (IndexDict_remove (OfIsbn i) (indexes lib)) as [idx' [b'|e]].
    + apply BookCollection_remove_Raise in Hrem as (-> & _). by destruct lib.
  - unfold Library_remove_random, BookCollection_pop_random.
    destruct (books lib) as [|x0 l0] eqn:Hbooks.
    { simpl. rewrite <- Hbooks. by destruct lib. }
    rewrite <- Hbooks.
    destruct (randrange rng (length (books lib))) as [index rng'].
    destruct (list_pop index (books lib)) as [[x l']|] eqn:Hpop.
    + apply list_pop_Some in Hpop as [Hx ->].
      pose proof (index_within_collection_pop (OfBook x) index x lib Hin Hx eq_refl)
        as Hkeep.
      by destruct (IndexDict_remove (OfBook x) (indexes lib)) as [idx' [b'|e]].
    + simpl. by destruct lib.
  - intros k b. simpl. rewrite by_isbn_rebuild.
    intros Hlast%last_Some_elem_of. by apply list_elem_of_filter in Hlast as [? ?].
Qed.

(** X25. In every library reachable from the empty one by [add_book],
    [remove_book], [remove_random] and [refresh_indexes], also when an isbn
    was added more than once and also after a call that raised, the index
    never points outside the collection: a book that [get_by_isbn] returns
    is a book of the collection with the isbn asked for, and every isbn of
    the index is an isbn of the collection. *)
Theorem library_reachable_index_within (lib : Library) :
  library_reachable lib →
  (∀ i b, Library_get_by_isbn i lib = Return b → b ∈ books lib ∧ isbn b = i) ∧
  index_ids (indexes lib) ⊆ collection_ids (books lib).
Proof.
  intros Hreach.
  assert (index_within_collection lib) as Hin.
  { induction Hreach as [|o lib _ IH]; [|by apply index_within_collection_step].
    intros k b. simpl. by rewrite lookup_empty. }
  split.
  - intros i b. unfold Library_get_by_isbn, IndexDict_getitem.
    destruct (by_isbn (indexes lib) !! i) as [b'|] eqn:Hb; [|done].
    intros [= <-]. by apply Hin.
  - unfold index_ids. intros i [b Hb]%elem_of_dom. apply elem_of_collection_ids.
    exists b. by apply Hin.
Qed.

End Catalogue.

(** ** Worked examples

    The instances: ASCII lowercasing for [str.lower], a counter for the
    random generator. [book_old] and [book_new] share the isbn 010;
    [book_other] has the author of [book_old] in another casing. *)

Abbreviation lib_step := (library_step lower_ascii nat counter_randrange).
Abbreviation idx_step := (index_step lower_ascii).

(** An empty library to which [book_old] was added once, and twice. *)
Definition lib_once : Library :=
  lib_step (AddBook nat book_old) (Library_init lower_ascii []).

Definition lib_twice : Library :=
  lib_step (AddBook nat book_old) lib_once.

(** An empty index to which [book_old], then [book_new], were added. *)
Definition idx_once : IndexDict :=
  idx_step (IAdd book_old) IndexDict_init.

Definition idx_stale : IndexDict :=
  idx_step (IAdd book_new) idx_once.

(** C1, counterexample. [add_book] twice with the same book, then
    [remove_book]: before the removal the two sets of isbns agree, after it
    the collection still holds the isbn and the index does not. *)
Lemma library_synced_counterexample :
  library_reachable lower_ascii nat counter_randrange lib_twice ∧
  library_synced lib_twice ∧
  library_reachable lower_ascii nat counter_randrange
    (lib_step (RemoveBook nat "010") lib_twice) ∧
  ¬ library_synced (lib_step (RemoveBook nat "010") lib_twice).
Proof.
  assert (library_reachable lower_ascii nat counter_randrange lib_twice) as Hreach.
  { do 2 apply library_reachable_step. apply library_reachable_init. }
  split_and!; [done| |by apply library_reachable_step|].
  - vm_compute. reflexivity.
  - vm_compute. discriminate.
Qed.

(** C1 on a library reached by an [add_book] and a [remove_random]. *)
Lemma library_synced_preserved_witness :
  library_synced (lib_step (RemoveRandom nat 5%nat) lib_once) ∧
  ∀ o, library_op_fresh nat o (lib_step (RemoveRandom nat 5%nat) lib_once) →
       library_synced (lib_step o (lib_step (RemoveRandom nat 5%nat) lib_once)).
Proof.
  apply (proj1 (library_synced_preserved lower_ascii nat counter_randrange _)).
  apply library_reachable_fresh_step; [|exact I].
  apply library_reachable_fresh_step; [|vm_compute; reflexivity].
  apply library_reachable_fresh_init.
Defined.

(** C2, counterexample. After adding [book_old] to a library that already
    holds it, a scan finds two entries with its isbn. *)
Lemma Library_add_book_counterexample :
  count_isbn (isbn book_old) (books (Library_add_book lower_ascii book_old lib_once))
  = 2%nat ∧
  count_isbn (isbn book_old) (books (Library_add_book lower_ascii book_old lib_once))
  ≠ 1%nat.
Proof. split; vm_compute; [reflexivity|discriminate]. Qed.

(** C3, counterexample. [remove_book] succeeds on the library that holds
    [book_old] twice, and the collection still contains the isbn afterwards. *)
Lemma Library_remove_book_counterexample :
  (Library_remove_book lower_ascii "010" lib_twice).2 = Return book_old ∧
  BookCollection_contains (OfIsbn "010")
    (books (Library_remove_book lower_ascii "010" lib_twice).1) = true.
Proof. split; vm_compute; reflexivity. Qed.

(** C3 on the library that holds [book_old] once. *)
Lemma Library_remove_book_gone_witness :
  BookCollection_contains (OfIsbn "010") (books (Library_init lower_ascii [])) = false ∧
  IndexDict_contains (OfIsbn "010") (indexes (Library_init lower_ascii [])) = false ∧
  Library_get_by_isbn "010" (Library_init lower_ascii []) = Raise KeyError ∧
  Library_remove_book lower_ascii "010" (Library_init lower_ascii [])
    = (Library_init lower_ascii [], Raise KeyError) ∧
  (∀ lib0 b, BookCollection_contains (OfBook b) (books lib0) = false →
     ∃ lib1, Library_remove_book lower_ascii (isbn b) (Library_add_book lower_ascii b lib0)
             = (lib1, Return b)).
Proof.
  apply (Library_remove_book_gone lower_ascii lib_once (Library_init lower_ascii [])
           "010" book_old).
  - vm_compute. lia.
  - vm_compute. reflexivity.
Defined.

(** C4 with [book_new] added over [book_old]. *)
Lemma IndexDict_add_same_isbn_witness :
  by_isbn idx_stale !! "010"%string = Some book_new ∧
  in_own_buckets lower_ascii book_new idx_stale ∧
  (in_own_buckets lower_ascii book_old idx_once →
   in_own_buckets lower_ascii book_old idx_stale) ∧
  (index_reachable lower_ascii idx_once →
   in_own_buckets lower_ascii book_old idx_stale) ∧
  ¬ in_by_isbn book_old idx_stale ∧
  (∀ key b, b ∈ bucket key (by_author idx_stale) ↔
            b ∈ bucket key (by_author idx_once) ∨
            (key = lower_ascii (author book_new) ∧ b = book_new)) ∧
  (∀ key b, b ∈ bucket key (by_year idx_stale) ↔
            b ∈ bucket key (by_year idx_once) ∨ (key = year book_new ∧ b = book_new)).
Proof.
  apply (IndexDict_add_same_isbn lower_ascii idx_once "010" book_old book_new).
  - vm_compute. reflexivity.
  - reflexivity.
  - reflexivity.
  - discriminate.
Defined.

(** C5, counterexample. After [add] of [book_old] and then of [book_new]
    under the same isbn, [book_old] is in the buckets of its author and year
    and is not in [by_isbn]. *)
Lemma index_consistent_counterexample :
  index_reachable lower_ascii idx_stale ∧
  in_own_buckets lower_ascii book_old idx_stale ∧
  ¬ in_by_isbn book_old idx_stale ∧
  ¬ index_consistent lower_ascii idx_stale.
Proof.
  assert (in_own_buckets lower_ascii book_old idx_stale) as Hin
    by (split; vm_compute; reflexivity).
  assert (¬ in_by_isbn book_old idx_stale) as Hout
    by (vm_compute; discriminate).
  split_and!; [|done..|].
  - do 2 apply index_reachable_step. apply index_reachable_init.
  - intros [Hiff _]. by apply Hout, Hiff.
Qed.

(** C5 on the index with the overwritten entry, and on one built without
    repeating an isbn. *)
Lemma index_reachable_consistent_witness :
  ((∀ b, in_by_isbn b idx_stale → in_own_buckets lower_ascii b idx_stale) ∧
   no_empty_bucket (by_author idx_stale) ∧
   no_empty_bucket (by_year idx_stale)) ∧
  index_consistent lower_ascii
    (idx_step (IRemove (OfIsbn "010")) (idx_step (IAdd book_other) idx_once)).
Proof.
  split.
  - apply (proj1 (index_reachable_consistent lower_ascii idx_stale)).
    do 2 apply index_reachable_step. apply index_reachable_init.
  - apply (proj2 (index_reachable_consistent lower_ascii _)).
    apply index_reachable_fresh_step; [|exact I].
    apply index_reachable_fresh_step; [|vm_compute; reflexivity].
    apply index_reachable_fresh_step; [|vm_compute; reflexivity].
    apply index_reachable_fresh_init.
Defined.

(** C6, counterexample. The right operand carries the isbn 010 twice and
    the left operand does not hold it: the code keeps the first of the two
    books, the concatenation as worded keeps both. *)
Lemma BookCollection_concat_counterexample :
  BookCollection_concat [book_other] [book_old; book_new] = [book_other; book_old] ∧
  concat_not_in_left [book_other] [book_old; book_new]
    = [book_other; book_old; book_new] ∧
  BookCollection_concat [book_other] [book_old; book_new]
    ≠ concat_not_in_left [book_other] [book_old; book_new].
Proof. split_and!; vm_compute; [reflexivity..|discriminate]. Qed.

(** The index after [add] of [book_old], [add] of [book_new] over it, and
    [remove] of their isbn. *)
Definition idx_removed : IndexDict :=
  idx_step (IRemove (OfIsbn "010")) idx_stale.

(** C8, counterexample. After [book_new] was added over [book_old] and
    their isbn removed, [by_isbn] is empty and [get_by_author] still returns
    [book_old]: the result is not made of the books of [by_isbn], and is not
    empty although the index holds no book. *)
Lemma IndexDict_get_by_author_counterexample :
  index_reachable lower_ascii idx_removed ∧
  by_isbn idx_removed = ∅ ∧
  IndexDict_len idx_removed = 0%nat ∧
  IndexDict_get_by_author lower_ascii "author a" idx_removed = [book_old] ∧
  ¬ (∀ b, b ∈ IndexDict_get_by_author lower_ascii "author a" idx_removed ↔
          (∃ k, by_isbn idx_removed !! k = Some b) ∧
          lower_ascii (author b) = lower_ascii "author a").
Proof.
  assert (by_isbn idx_removed = ∅) as Hempty by (vm_compute; reflexivity).
  assert (IndexDict_get_by_author lower_ascii "author a" idx_removed = [book_old])
    as Hresult by (vm_compute; reflexivity).
  split_and!; [|done|by vm_compute|done|].
  - do 3 apply index_reachable_step. apply index_reachable_init.
  - intros Hiff. destruct (proj1 (Hiff book_old)) as [[k Hk] _].
    + rewrite Hresult. by apply list_elem_of_singleton.
    + rewrite Hempty in Hk. by rewrite lookup_empty in Hk.
Qed.

(** C8 on the index with the overwritten entry and a third book, and on one
    built without repeating an isbn. *)
Lemma IndexDict_get_by_author_year_witness :
  let idx := idx_step (IAdd book_other) idx_stale in
  let idx_fresh := idx_step (IAdd book_other) idx_once in
  let a := "aUTHOR a"%string in
  ((∀ b, b ∈ IndexDict_get_by_author lower_ascii a idx →
         lower_ascii (author b) = lower_ascii a) ∧
   (∀ k b, by_isbn idx !! k = Some b → lower_ascii (author b) = lower_ascii a →
           b ∈ IndexDict_get_by_author lower_ascii a idx) ∧
   (∀ book a', lower_ascii a' = lower_ascii (author book) →
           book ∈ IndexDict_get_by_author lower_ascii a'
                    (IndexDict_add lower_ascii book idx)) ∧
   NoDup (IndexDict_get_by_author lower_ascii a idx) ∧
   (∀ b, b ∈ IndexDict_get_by_year 2001 idx ↔ b ∈ bucket 2001 (by_year idx)) ∧
   (∀ b, b ∈ IndexDict_get_by_year 2001 idx → year b = 2001) ∧
   (∀ k b, by_isbn idx !! k = Some b → year b = 2001 →
           b ∈ IndexDict_get_by_year 2001 idx) ∧
   (by_year idx !! 2001 = None → IndexDict_get_by_year 2001 idx = []) ∧
   NoDup (IndexDict_get_by_year 2001 idx)) ∧
  ((∀ b, b ∈ IndexDict_get_by_author lower_ascii a idx_fresh ↔
         (∃ k, by_isbn idx_fresh !! k = Some b) ∧
         lower_ascii (author b) = lower_ascii a) ∧
   ((∀ k b, by_isbn idx_fresh !! k = Some b →
            lower_ascii (author b) ≠ lower_ascii a) →
         IndexDict_get_by_author lower_ascii a idx_fresh = []) ∧
   (∀ b, b ∈ IndexDict_get_by_year 2001 idx_fresh ↔
         (∃ k, by_isbn idx_fresh !! k = Some b) ∧ year b = 2001) ∧
   ((∀ k b, by_isbn idx_fresh !! k = Some b → year b ≠ 2001) →
         IndexDict_get_by_year 2001 idx_fresh = [])).
Proof.
  split.
  - apply (proj1 (IndexDict_get_by_author_year lower_ascii
                    (idx_step (IAdd book_other) idx_stale) "aUTHOR a" 2001)).
    do 3 apply index_reachable_step. apply index_reachable_init.
  - apply (proj2 (IndexDict_get_by_author_year lower_ascii
                    (idx_step (IAdd book_other) idx_once) "aUTHOR a" 2001)).
    apply index_reachable_fresh_step; [|vm_compute; reflexivity].
    apply index_reachable_fresh_step; [|vm_compute; reflexivity].
    apply index_reachable_fresh_init.
Defined.

(** C10 for an isbn the index never held. *)
Lemma IndexDict_remove_absent_witness :
  IndexDict_remove lower_ascii (OfIsbn "999") idx_stale = (idx_stale, Raise KeyError).
Proof.
  apply (IndexDict_remove_absent lower_ascii idx_stale (OfIsbn "999")).
  vm_compute. reflexivity.
Defined.

(** The scenarios of the test-suite, evaluated. *)
Example get_by_author_other_casing :
  IndexDict_get_by_author lower_ascii "AUTHOR A" idx_once = [book_old].
Proof. vm_compute. reflexivity. Qed.

Example remove_random_draws_from_collection :
  Library_remove_random lower_ascii nat counter_randrange 5%nat lib_once
  = (6%nat, Library_init lower_ascii [], Return book_old).
Proof. vm_compute. reflexivity. Qed.

(** ** Worked examples for the further properties *)

(** A library holding [book_old] and [book_other]. *)
Definition lib_pair : Library :=
  lib_step (AddBook nat book_other) lib_once.

Lemma lib_pair_reachable_fresh :
  library_reachable_fresh lower_ascii nat counter_randrange lib_pair.
Proof.
  apply library_reachable_fresh_step; [|vm_compute; reflexivity].
  apply library_reachable_fresh_step; [|vm_compute; reflexivity].
  apply library_reachable_fresh_init.
Qed.

(** X1 on a collection that holds the isbn 010 twice, after another book. *)
Lemma BookCollection_remove_first_witness :
  ∃ l1 b l2,
    [book_other; book_old; book_new] = l1 ++ b :: l2 ∧
    isbn b = "010"%string ∧
    (∀ y, y ∈ l1 → isbn y ≠ "010"%string) ∧
    BookCollection_remove (OfIsbn "010") [book_other; book_old; book_new]
    = (l1 ++ l2, Return b).
Proof.
  apply (BookCollection_remove_first lower_ascii (OfIsbn "010") [book_other; book_old; book_new]).
  vm_compute. reflexivity.
Defined.

(** X4 with [book_old] added to a collection that holds [book_other]. *)
Lemma BookCollection_add_remove_witness :
  BookCollection_remove (OfBook book_old) (BookCollection_add book_old [book_other])
    = ([book_other], Return book_old) ∧
  BookCollection_remove (OfIsbn (isbn book_old))
    (BookCollection_add book_old [book_other])
    = ([book_other], Return book_old).
Proof.
  apply (BookCollection_add_remove lower_ascii book_old [book_other]).
  vm_compute. reflexivity.
Defined.

(** X5 with the counter generator in state 5 on a collection of two books. *)
Lemma BookCollection_pop_random_in_range_witness :
  ∃ b,
    [book_other; book_old] !! (counter_randrange 5 (length [book_other; book_old])).1
      = Some b ∧
    BookCollection_pop_random nat counter_randrange 5%nat [book_other; book_old]
      = ((counter_randrange 5 (length [book_other; book_old])).2,
         delete (counter_randrange 5 (length [book_other; book_old])).1
           [book_other; book_old],
         Return b) ∧
    [book_other; book_old]
      ≡ₚ b :: delete (counter_randrange 5 (length [book_other; book_old])).1
                [book_other; book_old] ∧
    S (length (delete (counter_randrange 5 (length [book_other; book_old])).1
                 [book_other; book_old]))
      = length [book_other; book_old].
Proof.
  apply (BookCollection_pop_random_in_range nat counter_randrange 5%nat
           [book_other; book_old]).
  - discriminate.
  - vm_compute. lia.
Defined.

(** X6 with a right operand that repeats an isbn. *)
Lemma BookCollection_concat_NoDup_witness :
  NoDup (isbn <$> BookCollection_concat [book_other] [book_old; book_new]).
Proof.
  apply (BookCollection_concat_NoDup lower_ascii [book_other] [book_old; book_new]).
  apply NoDup_singleton.
Defined.

(** X9 on the index that holds [book_old] and [book_other]. *)
Lemma IndexDict_remove_stored_witness :
  let idx := idx_step (IAdd book_other) idx_once in
  let idx' := (IndexDict_remove lower_ascii (OfIsbn "010") idx).1 in
  (IndexDict_remove lower_ascii (OfIsbn "010") idx).2 = Return book_old ∧
  by_isbn idx' = delete "010"%string (by_isbn idx) ∧
  IndexDict_contains (OfIsbn "010") idx' = false ∧
  (∀ key b', b' ∈ bucket key (by_author idx') ↔
             b' ∈ bucket key (by_author idx) ∧ b' ≠ book_old) ∧
  (∀ key b', b' ∈ bucket key (by_year idx') ↔
             b' ∈ bucket key (by_year idx) ∧ b' ≠ book_old).
Proof.
  apply (IndexDict_remove_stored lower_ascii
           (idx_step (IAdd book_other) idx_once) (OfIsbn "010") book_old).
  - do 2 apply index_reachable_step. apply index_reachable_init.
  - vm_compute. reflexivity.
Defined.

(** X10 with [book_old] added to, and removed from, the index that holds
    [book_other]. *)
Lemma IndexDict_add_remove_witness :
  IndexDict_remove lower_ascii (OfBook book_old)
    (IndexDict_add lower_ascii book_old (idx_step (IAdd book_other) IndexDict_init))
  = (idx_step (IAdd book_other) IndexDict_init, Return book_old).
Proof.
  apply (IndexDict_add_remove lower_ascii
           (idx_step (IAdd book_other) IndexDict_init) book_old).
  - apply index_reachable_fresh_step; [|vm_compute; reflexivity].
    apply index_reachable_fresh_init.
  - vm_compute. reflexivity.
Defined.

(** X14 for a library built from two books. *)
Lemma Library_init_NoDup_witness :
  library_reachable_fresh lower_ascii nat counter_randrange
    (Library_init lower_ascii [book_old; book_other]) ∧
  library_synced (Library_init lower_ascii [book_old; book_other]) ∧
  (∀ b, b ∈ [book_old; book_other] →
        Library_get_by_isbn (isbn b) (Library_init lower_ascii [book_old; book_other])
        = Return b).
Proof.
  apply (Library_init_NoDup lower_ascii nat counter_randrange [book_old; book_other]).
  apply NoDup_cons. split; [|apply NoDup_singleton].
  intros Hin%list_elem_of_singleton. discriminate Hin.
Defined.

(** X15 on [lib_pair], for the isbn of [book_other]. *)
Lemma Library_get_by_isbn_scan_witness :
  (∀ b, Library_get_by_isbn "020" lib_pair = Return b ↔
        b ∈ books lib_pair ∧ isbn b = "020"%string) ∧
  (Library_get_by_isbn "020" lib_pair = Raise KeyError ↔
   BookCollection_contains (OfIsbn "020") (books lib_pair) = false).
Proof.
  apply (Library_get_by_isbn_scan lower_ascii nat counter_randrange lib_pair "020").
  apply lib_pair_reachable_fresh.
Defined.

(** X16 on [lib_pair], whose two books have one author in two casings. *)
Lemma Library_find_scan_witness :
  (∀ b, b ∈ Library_find_by_author lower_ascii "author a" lib_pair ↔
        b ∈ books lib_pair ∧ lower_ascii (author b) = lower_ascii "author a") ∧
  (∀ b, b ∈ Library_find_by_year 2001 lib_pair ↔
        b ∈ books lib_pair ∧ year b = 2001) ∧
  NoDup (Library_find_by_author lower_ascii "author a" lib_pair) ∧
  NoDup (Library_find_by_year 2001 lib_pair).
Proof.
  apply (Library_find_scan lower_ascii nat counter_randrange lib_pair "author a" 2001).
  apply lib_pair_reachable_fresh.
Defined.

(** X17 on [lib_pair]. *)
Lemma Library_len_indexes_witness :
  IndexDict_len (indexes lib_pair) = length (books lib_pair).
Proof.
  apply (Library_len_indexes lower_ascii nat counter_randrange lib_pair).
  apply lib_pair_reachable_fresh.
Defined.

(** X19 on [lib_pair], for the isbn of [book_old]. *)
Lemma Library_remove_book_atomic_witness :
  (BookCollection_contains (OfIsbn "010") (books lib_pair) = true →
   ∃ b lib',
     Library_remove_book lower_ascii "010" lib_pair = (lib', Return b) ∧
     Library_get_by_isbn "010" lib_pair = Return b ∧
     b ∈ books lib_pair ∧
     S (length (books lib')) = length (books lib_pair) ∧
     library_reachable_fresh lower_ascii nat counter_randrange lib') ∧
  (BookCollection_contains (OfIsbn "010") (books lib_pair) = false →
   Library_remove_book lower_ascii "010" lib_pair = (lib_pair, Raise KeyError)).
Proof.
  apply (Library_remove_book_atomic lower_ascii nat counter_randrange lib_pair "010").
  apply lib_pair_reachable_fresh.
Defined.

(** X20 on the library whose collection still holds [book_old] after the
    index lost its isbn. *)
Lemma Library_remove_book_partial_witness :
  ∃ l1 b l2,
    books (lib_step (RemoveBook nat "010") lib_twice) = l1 ++ b :: l2 ∧
    isbn b = "010"%string ∧
    (∀ y, y ∈ l1 → isbn y ≠ "010"%string) ∧
    Library_remove_book lower_ascii "010" (lib_step (RemoveBook nat "010") lib_twice)
    = ({| books := l1 ++ l2;
          indexes := indexes (lib_step (RemoveBook nat "010") lib_twice) |},
       Raise KeyError) ∧
    S (length (l1 ++ l2)) = length (books (lib_step (RemoveBook nat "010") lib_twice)) ∧
    l1 ++ l2 ≠ books (lib_step (RemoveBook nat "010") lib_twice).
Proof.
  apply (Library_remove_book_partial lower_ascii
           (lib_step (RemoveBook nat "010") lib_twice) "010").
  - vm_compute. reflexivity.
  - vm_compute. reflexivity.
Defined.

(** X21 on [lib_pair] with the counter generator in state 5. *)
Lemma Library_remove_random_fresh_witness :
  ∃ b lib',
    Library_remove_random lower_ascii nat counter_randrange 5%nat lib_pair
      = ((counter_randrange 5 (length (books lib_pair))).2, lib', Return b) ∧
    books lib_pair !! (counter_randrange 5 (length (books lib_pair))).1 = Some b ∧
    books lib' = delete (counter_randrange 5 (length (books lib_pair))).1 (books lib_pair) ∧
    Library_get_by_isbn (isbn b) lib' = Raise KeyError ∧
    library_reachable_fresh lower_ascii nat counter_randrange lib'.
Proof.
  apply (Library_remove_random_fresh lower_ascii nat counter_randrange 5%nat lib_pair).
  - apply lib_pair_reachable_fresh.
  - vm_compute. lia.
Defined.

(** X22 on [lib_pair] with the counter generator in state 5. *)
Lemma remove_book_event_safe_witness :
  ∃ rng' lib' line,
    remove_book_event lower_ascii nat counter_randrange lib_pair 5%nat
      = (rng', lib', Return line) ∧
    library_reachable_fresh lower_ascii nat counter_randrange lib' ∧
    library_synced lib' ∧
    (books lib_pair = [] → rng' = 5%nat ∧ lib' = lib_pair) ∧
    (books lib_pair ≠ [] → S (length (books lib')) = length (books lib_pair)).
Proof.
  apply (remove_book_event_safe lower_ascii nat counter_randrange lib_pair 5%nat).
  - apply lib_pair_reachable_fresh.
  - intros _. vm_compute. lia.
Defined.

(** The two events on small libraries. *)
Example remove_book_event_prints :
  remove_book_event lower_ascii nat counter_randrange lib_once 5%nat
  = (6%nat, Library_init lower_ascii [],
     Return "[удаление] Удалена First edition (2001) [010]").
Proof. vm_compute. reflexivity. Qed.

Example refresh_index_event_counts_isbns :
  (refresh_index_event lower_ascii lib_twice).2
  = "[переиндексация] Перестроены индексы для 1 книг".
Proof. vm_compute. reflexivity. Qed.

Example Book_contains_other_casing :
  Book_contains lower_ascii "EDITION" book_old = true ∧
  Book_contains lower_ascii "thor a" book_other = true ∧
  Book_contains lower_ascii "poems" book_other = false.
Proof. vm_compute. auto. Qed.

(** X25 on the library that lost the isbn 010 from its index and kept it in
    its collection. *)
Lemma library_reachable_index_within_witness :
  (∀ i b, Library_get_by_isbn i (lib_step (RemoveBook nat "010") lib_twice) = Return b →
          b ∈ books (lib_step (RemoveBook nat "010") lib_twice) ∧ isbn b = i) ∧
  index_ids (indexes (lib_step (RemoveBook nat "010") lib_twice))
    ⊆ collection_ids (books (lib_step (RemoveBook nat "010") lib_twice)).
Proof.
  apply (library_reachable_index_within lower_ascii nat counter_randrange).
  do 3 apply library_reachable_step. apply library_reachable_init.
Defined.
